(** * CAN converter: a shallow embedding of internal/converter/can/converter.go

    The repository holds two revisions of the file.  Both share the types
    [packedFrames] and [Converter], [Encode], [NewConverter] and
    [addMessageDb]; they differ in [Decode]:  the current revision scans the
    payload by hand with the fastjson reader, the earlier one hands it to
    encoding/json.  The current revision lives at top level, the earlier
    [Decode] in [Module Legacy].  [Module Mem] runs the current [Decode] on
    the converter's memory, where the table holds pointers to messages the
    library may write to and the parser carries state.

    Packages the file imports (fastjson, encoding/hex, encoding/json, the can
    descriptor and the DBC compiler, os and filepath) are not part of the
    repository.  What the converter uses of fastjson's accessors and of
    encoding/hex is written out below after those libraries; the JSON
    readers, the DBC compiler, the signal extraction and the file system are
    fields of the classes [Lib] and [OS]. *)

From Stdlib Require Import ZArith Ascii String.
From stdpp Require Import base numbers option list strings gmap.

Local Open Scope string_scope.
Local Open Scope Z_scope.
Local Set Warnings "-register-all".

(** ** Results of a Go call

    A Go function of type [(T, error)] either returns a value, returns an
    error, or does not return because the goroutine panics. *)

Inductive PanicValue : Type :=
| NilDereference                 (* runtime error: invalid memory address or nil pointer dereference *)
| PanicString (s : string).      (* panic("...") *)

Inductive outcome (E A : Type) : Type :=
| Ok (a : A)
| Err (e : E)
| Panic (p : PanicValue).

Arguments Ok {E A} a.
Arguments Err {E A} e.
Arguments Panic {E A} p.

Definition wrap {E E' A} (f : E -> E') (r : outcome E A) : outcome E' A :=
  match r with
  | Ok a => Ok a
  | Err e => Err (f e)
  | Panic p => Panic p
  end.

Definition isErr {E A} (r : outcome E A) : bool :=
  match r with Err _ => true | _ => false end.

Definition isOk {E A} (r : outcome E A) : bool :=
  match r with Ok _ => true | _ => false end.

Definition isPanic {E A} (r : outcome E A) : bool :=
  match r with Panic _ => true | _ => false end.

(** ** fastjson values

    A parsed document is a tree; a number keeps its source text, a string
    its unescaped contents, an object its members in document order
    (repeated keys are kept). *)

Inductive Value : Type :=
| VNull
| VTrue
| VFalse
| VNumber (s : string)
| VString (s : string)
| VArray (a : list Value)
| VObject (kvs : list (string * Value)).

Inductive Type_ : Type :=
| TypeNull | TypeObject | TypeArray | TypeString | TypeNumber | TypeTrue | TypeFalse.

Definition Value_Type (v : Value) : Type_ :=
  match v with
  | VNull => TypeNull
  | VTrue => TypeTrue
  | VFalse => TypeFalse
  | VNumber _ => TypeNumber
  | VString _ => TypeString
  | VArray _ => TypeArray
  | VObject _ => TypeObject
  end.

Inductive LibError : Type :=
| ParseError (msg : string)               (* Parser.ParseBytes *)
| WrongType (want got : Type_)            (* value doesn't contain <want>; it contains <got> *)
| CannotParseUint (s : string)            (* cannot parse uint <s> *)
| DoesntFitUint (s : string)              (* number <s> doesn't fit uint *)
| ErrLength                               (* hex: odd length hex string *)
| InvalidByteError (c : ascii)            (* hex: invalid byte *)
| UnmarshalError (msg : string).          (* json.Unmarshal *)

(** A pointer to a [Value] or to an object is an [option]: [None] is Go's
    nil. *)

(** [Object.Get]: the first member with that key, nil when there is
    none. *)
Fixpoint Object_Get (kvs : list (string * Value)) (key : string) : option Value :=
  match kvs with
  | [] => None
  | (k, v) :: rest => if String.eqb k key then Some v else Object_Get rest key
  end.

Definition isDigit (c : ascii) : bool :=
  let n := Z.of_N (N_of_ascii c) in (48 <=? n) && (n <=? 57).

Fixpoint digitsValue (acc : Z) (s : string) : Z :=
  match s with
  | EmptyString => acc
  | String c rest => digitsValue (acc * 10 + (Z.of_N (N_of_ascii c) - 48)) rest
  end.

Fixpoint allDigits (s : string) : bool :=
  match s with
  | EmptyString => true
  | String c rest => isDigit c && allDigits rest
  end.

(** [strconv.Atoi] as far as an index needs it: an optional sign and a
    non-empty run of digits (a numeral too large for [int] is an error
    there and an index out of range here). *)
Definition Atoi (s : string) : option Z :=
  let '(neg, body) :=
    match s with
    | String "+" r => (false, r)
    | String "-" r => (true, r)
    | _ => (false, s)
    end in
  if negb (String.eqb body "") && allDigits body
  then Some (if neg : bool then - digitsValue 0 body else digitsValue 0 body)
  else None.

(** [Value.Get] with one key, as the converter calls it: nil for a nil
    receiver; an object looks the key up; an array reads the key as a decimal
    index; anything else has no members. *)
Definition Value_Get (v : option Value) (key : string) : option Value :=
  match v with
  | None => None
  | Some (VObject kvs) => Object_Get kvs key
  | Some (VArray a) =>
      match Atoi key with
      | Some n => if n <? 0 then None else a !! Z.to_nat n
      | None => None
      end
  | Some _ => None
  end.

(** [Value.Object] and [Value.Array] read the receiver's type tag
    with no nil check: on a nil receiver the call panics. *)
Definition Value_Object (v : option Value) : outcome LibError (list (string * Value)) :=
  match v with
  | None => Panic NilDereference
  | Some (VObject kvs) => Ok kvs               (* &v.o, which is never nil *)
  | Some v' => Err (WrongType TypeObject (Value_Type v'))
  end.

Definition Value_Array (v : option Value) : outcome LibError (list Value) :=
  match v with
  | None => Panic NilDereference
  | Some (VArray a) => Ok a
  | Some v' => Err (WrongType TypeArray (Value_Type v'))
  end.

(** [fastfloat.ParseUint64BestEffort]: the value of a non-empty run of
    decimal digits that fits 64 bits, and 0 for everything else. *)
Definition ParseUint64BestEffort (s : string) : Z :=
  if negb (String.eqb s "") && allDigits s then
    let d := digitsValue 0 s in
    if d <? 2 ^ 64 then d else 0
  else 0.

(** [Value.GetStringBytes] with no key: nil (here the empty string, whose
    length is all the converter reads) unless the value is a string. *)
Definition Value_GetStringBytes (v : option Value) : string :=
  match v with
  | Some (VString s) => s
  | _ => ""
  end.

(** ** encoding/hex *)

(** [reverseHexTable]. *)
Definition fromHexChar (c : ascii) : Z :=
  let n := Z.of_N (N_of_ascii c) in
  if (48 <=? n) && (n <=? 57) then n - 48
  else if (97 <=? n) && (n <=? 102) then n - 97 + 10
  else if (65 <=? n) && (n <=? 70) then n - 65 + 10
  else 255.

Definition hex_DecodedLen (x : nat) : nat := (x / 2)%nat.

(** [hex.Decode]: pairs of digits from the left; a bad digit is reported
    before a bad length. *)
Fixpoint hex_Decode (src : string) : outcome LibError (list Z) :=
  match src with
  | EmptyString => Ok []
  | String p EmptyString =>
      if 15 <? fromHexChar p then Err (InvalidByteError p) else Err ErrLength
  | String p (String q rest) =>
      let a := fromHexChar p in
      let b := fromHexChar q in
      if 15 <? a then Err (InvalidByteError p)
      else if 15 <? b then Err (InvalidByteError q)
      else match hex_Decode rest with
           | Ok bs => Ok (Z.lor (Z.shiftl a 4) b :: bs)
           | Err e => Err e
           | Panic p' => Panic p'
           end
  end.

(** ** The CAN frame *)

(** Modelled from the spec: the declaration of [can.Frame] is in the
    imported package github.com/ngjaying/can and not in the repository; the
    spec gives a frame a 32-bit ID and a fixed payload of 8 bytes. *)
Definition MaxDataLength : nat := 8.

Record Frame : Type := mkFrame {
  ID : Z;            (* uint32 *)
  Data : list Z      (* [MaxDataLength]byte *)
}.

(** The zero value of a frame, as [make([]can.Frame, n)] fills the slice. *)
Definition zeroFrame : Frame := {| ID := 0; Data := replicate MaxDataLength 0 |}.

(** Go's builtin [copy(dst, src)]: the first [min (len dst) (len src)]
    elements of [dst] are overwritten. *)
Definition copy (dst src : list Z) : list Z :=
  take (length dst) src ++ drop (length src) dst.

(** The conversion [uint32(x)] of an unsigned integer. *)
Definition uint32 (x : Z) : Z := x mod 2 ^ 32.

(** Values stored behind [interface{}] in the meta map. *)
Inductive any : Type :=
| AFloat64 (raw : string)     (* the float64 of this numeral *)
| AString (s : string)
| ABool (b : bool)
| AJson (v : Value).          (* whatever else encoding/json stores *)

(** [packedFrames]; [None] is a nil map, a nil slice. *)
Record packedFrames : Type := mkPacked {
  Meta : option (gmap string any);
  Frames : option (list Frame)
}.

(** ** The package's errors and log lines *)

Inductive error : Type :=
| LibErr (e : LibError)                               (* returned as it came *)
| InvalidJson (b : string) (e : LibError)             (* invalid frame json `b` received: e *)
| ShouldBeObject (b : string) (e : LibError)          (* ..., should be object but receive error: e *)
| ShouldHaveFramesArray (b : string) (e : LibError)   (* ..., should have frames array but receive error: e *)
| FrameIdShouldBeUint (b : string) (e : LibError)     (* ..., frame id should be uint but receive error: e *)
| FrameDataShouldBeString (b : string) (e : LibError) (* ..., frame data should be string but receive error: e *)
| FrameDataShouldBeHex (b : string) (e : LibError)    (* ..., frame data should be hex string but receive error: e *)
| NoFrames (b : string)                               (* invalid frame json `b`, no frames *)
| ShouldHaveMetaObject (b : string) (e : LibError).   (* ..., should have meta object but receive error: e *)

Inductive LogEntry : Type :=
| Errorf_cannot_find_message (id : Z)                 (* conf.Log.Errorf("cannot find message %d", frame.ID) *)
| Warnf_unknown_type (t : Type_) (k : string).        (* conf.Log.Warnf("unknown type %s for meta %s", ...) *)

(** ** The imported packages

    [ParseBytes] is fastjson's parser and [Value_String] its marshaller;
    [UintSize] is the width of Go's [uint] on the platform the converter is
    built for; [Message] is [descriptor.Message], [DecodeToMap] its signal
    extraction (it writes into the map it is given and is taken to leave the
    message alone), [Compile] is [generate.Compile] followed by
    [.Database.Messages]; [json_Unmarshal] is encoding/json filling a
    [packedFrames]. *)
Class Lib : Type := {
  ParseBytes : string -> outcome LibError Value;
  Value_String : Value -> string;
  UintSize : Z;
  Message : Type;
  Message_ID : Message -> Z;
  SigValue : Type;
  DecodeToMap : Message -> Frame -> gmap string SigValue -> gmap string SigValue;
  Compile : string -> string -> outcome LibError (list Message);
  json_Unmarshal : string -> outcome LibError packedFrames
}.

(** The file system as [NewConverter] reads it: [os_Stat] answers
    [IsDir]; [filepath_Walk] lists the entries for which the walk calls its
    function, each with the size its [FileInfo] reports, or with [None] when
    the walk could not stat the entry and hands the function a nil
    [FileInfo]; [os_Read] opens a file and reads once into a buffer of the
    given length, giving the bytes read. *)
Class OS : Type := {
  os_Stat : string -> outcome LibError bool;
  filepath_Walk : string -> list (string * option Z);
  os_Read : string -> Z -> outcome LibError string;
  os_ReadFile : string -> outcome LibError string
}.

Section Converter.
Context `{L : Lib}.

Record Converter : Type := mkConverter {
  messages : gmap Z Message
}.

(** The state a call runs in: the converter behind the receiver pointer and
    the lines written to the log so far. *)
Record Heap : Type := mkHeap {
  conv : Converter;
  logged : list LogEntry
}.

Definition M (A : Type) : Type := Heap -> outcome error A * Heap.

Definition ret {A} (a : A) : M A := fun h => (Ok a, h).

Definition bind {A B} (m : M A) (k : A -> M B) : M B :=
  fun h =>
    match m h with
    | (Ok a, h') => k a h'
    | (Err e, h') => (Err e, h')
    | (Panic p, h') => (Panic p, h')
    end.

Definition lift {A} (r : outcome error A) : M A := fun h => (r, h).

Definition logf (e : LogEntry) : M unit :=
  fun h => (Ok tt, {| conv := conv h; logged := logged h ++ [e] |}).

Definition readMessages : M (gmap Z Message) :=
  fun h => (Ok (messages (conv h)), h).

Definition obind {E A B} (r : outcome E A) (k : A -> outcome E B) : outcome E B :=
  match r with
  | Ok a => k a
  | Err e => Err e
  | Panic p => Panic p
  end.

End Converter.

Notation "'let*' x ':=' m 'in' k" := (bind m (fun x => k))
  (at level 10, x name, m at level 100, k at level 200).
Notation "'let?' x ':=' m 'in' k" := (obind m (fun x => k))
  (at level 10, x name, m at level 100, k at level 200).

Section Decode.
Context `{L : Lib}.

(** [Value.Uint]: the receiver's type is read with no nil check; the
    numeral must parse as an unsigned integer and survive the conversion to
    [uint]. *)
Definition Value_Uint (v : option Value) : outcome LibError Z :=
  match v with
  | None => Panic NilDereference
  | Some (VNumber s) =>
      let n := ParseUint64BestEffort s in
      if (n =? 0) && negb (String.eqb s "0") then Err (CannotParseUint s)
      else
        let nn := n mod 2 ^ UintSize in
        if nn =? n then Ok nn else Err (DoesntFitUint s)
  | Some v' => Err (WrongType TypeNumber (Value_Type v'))
  end.

(** [func (c Converter) Encode(_ interface{}) ([]byte, error)] *)
Definition Encode {A : Type} (_ : A) : M string :=
  fun h => (Panic (PanicString "implement me"), h).

(** The body of the loop over [rawFrames] (one frame of [pf.Frames]). *)
Definition decodeFrame (b : string) (rawFrame : Value) : outcome error Frame :=
  let? tid := wrap (FrameIdShouldBeUint b) (Value_Uint (Value_Get (Some rawFrame) "id")) in
  let frame_ID := uint32 tid in
  let tdata := Value_GetStringBytes (Value_Get (Some rawFrame) "data") in
  (* [err] is still the nil error of the id: GetStringBytes returns none *)
  let err : option LibError := None in
  match err with
  | Some e => Err (FrameDataShouldBeString b e)
  | None =>
      let? decodedData := wrap (FrameDataShouldBeHex b) (hex_Decode tdata) in
      Ok {| ID := frame_ID; Data := copy (Data zeroFrame) decodedData |}
  end.

(** The loop itself: the first failing element ends the call. *)
Fixpoint decodeFrames (b : string) (rawFrames : list Value) : outcome error (list Frame) :=
  match rawFrames with
  | [] => Ok []
  | rawFrame :: rest =>
      let? f := decodeFrame b rawFrame in
      let? fs := decodeFrames b rest in
      Ok (f :: fs)
  end.

(** The callback of [metaObj.Visit], run over the members in order. *)
Fixpoint visitMeta (kvs : list (string * Value)) (meta : gmap string any) : M (gmap string any) :=
  match kvs with
  | [] => ret meta
  | (k, v) :: rest =>
      match v with
      | VNumber s => visitMeta rest (<[k := AFloat64 s]> meta)
      | VString _ => visitMeta rest (<[k := AString (Value_String v)]> meta)
      | VTrue => visitMeta rest (<[k := ABool true]> meta)
      | VFalse => visitMeta rest (<[k := ABool false]> meta)
      | _ => let* _ := logf (Warnf_unknown_type (Value_Type v) k) in visitMeta rest meta
      end
  end.

(** Everything up to the dispatch: the payload read into a [packedFrames].
    [pf.Frames] is the slice [make] returned, so the test against nil after
    the loop sees a slice; [metaObj] is the address of a field of the value,
    so the test against nil before the visit always passes. *)
Definition parsePacked (b : string) : M packedFrames :=
  let* v := lift (wrap (InvalidJson b) (ParseBytes b)) in
  let* obj := lift (wrap (ShouldBeObject b) (Value_Object (Some v))) in
  let* rawFrames := lift (wrap (ShouldHaveFramesArray b)
                            (Value_Array (Object_Get obj "frames"))) in
  let* frames := lift (decodeFrames b rawFrames) in
  let pf_Frames : option (list Frame) := Some frames in
  match pf_Frames with
  | None => lift (Err (NoFrames b))
  | Some _ =>
      let* metaObj := lift (wrap (ShouldHaveMetaObject b)
                              (Value_Object (Object_Get obj "meta"))) in
      let* meta := visitMeta metaObj ∅ in
      ret {| Meta := Some meta; Frames := pf_Frames |}
  end.

(** The loop over [pf.Frames]: an unknown ID is logged and skipped. *)
Fixpoint dispatch (frames : list Frame) (result : gmap string SigValue)
  : M (gmap string SigValue) :=
  match frames with
  | [] => ret result
  | frame :: rest =>
      let* mm := readMessages in
      match mm !! ID frame with
      | None =>
          let* _ := logf (Errorf_cannot_find_message (ID frame)) in
          dispatch rest result
      | Some desc => dispatch rest (DecodeToMap desc frame result)
      end
  end.

(** [func (c Converter) Decode(b []byte) (interface{}, error)] *)
Definition Decode (b : string) : M (gmap string SigValue) :=
  let* pf := parsePacked b in
  dispatch (default [] (Frames pf)) ∅.

End Decode.

(** ** Building the message table *)

Section Build.
Context `{L : Lib} `{F : OS}.

(** [addMessageDb]: the loop over [c.Database.Messages] keeps the entry an
    ID already has. *)
Fixpoint addMessages (mm : gmap Z Message) (ms : list Message) : gmap Z Message :=
  match ms with
  | [] => mm
  | m :: rest =>
      match mm !! Message_ID m with
      | Some _ => addMessages mm rest
      | None => addMessages (<[Message_ID m := m]> mm) rest
      end
  end.

Definition addMessageDb (mm : gmap Z Message) (dbcPath dbcContent : string)
  : outcome error (gmap Z Message) :=
  let? c := wrap LibErr (Compile dbcPath dbcContent) in
  Ok (addMessages mm c).

(** [filepath.Ext]: from the last dot of the last path element. *)
Fixpoint Ext_from (path cur : string) : string :=
  match path with
  | EmptyString => cur
  | String c rest =>
      if Ascii.eqb c "/" then Ext_from rest ""
      else if Ascii.eqb c "." then Ext_from rest path
      else Ext_from rest cur
  end.

Definition filepath_Ext (path : string) : string := Ext_from path "".

Definition toLower (c : ascii) : ascii :=
  let n := N_of_ascii c in
  if ((65 <=? n) && (n <=? 90))%N then ascii_of_N (n + 32) else c.

Fixpoint lower (s : string) : string :=
  match s with
  | EmptyString => EmptyString
  | String c rest => String (toLower c) (lower rest)
  end.

(** [strings.EqualFold(s, ".dbc")]: the letters d, b and c fold to their
    ASCII capitals only. *)
Definition isDbc (ext : string) : bool := String.eqb (lower ext) ".dbc".

(** The callback handed to [filepath.Walk], run over the visited entries.
    It ignores the error the walk passes and always returns nil, so the walk
    visits every entry; for an entry with the DBC extension it calls
    [info.Size()], which panics when the [FileInfo] is nil. *)
Fixpoint walkFn (entries : list (string * option Z)) (files : list string) (max : Z)
  : outcome error (list string * Z) :=
  match entries with
  | [] => Ok (files, max)
  | (path, info) :: rest =>
      if isDbc (filepath_Ext path)
      then match info with
           | None => Panic NilDereference
           | Some size => walkFn rest (files ++ [path]) (if max <? size then size else max)
           end
      else walkFn rest files max
  end.

(** The loop over [files]: one read into the shared buffer, then the merge. *)
Fixpoint loadFiles (mm : gmap Z Message) (max : Z) (files : list string)
  : outcome error (gmap Z Message) :=
  match files with
  | [] => Ok mm
  | file :: rest =>
      let? content := wrap LibErr (os_Read file max) in
      let? mm' := addMessageDb mm file content in
      loadFiles mm' max rest
  end.

(** [func NewConverter(dbcPath string) (message.Converter, error)] *)
Definition NewConverter (dbcPath : string) : outcome error Converter :=
  let? isDir := wrap LibErr (os_Stat dbcPath) in
  let mm : gmap Z Message := ∅ in
  if isDir : bool then
    let? walked := walkFn (filepath_Walk dbcPath) [] 0 in
    let '(files, max) := walked in
    let? mm' := loadFiles mm max files in
    Ok {| messages := mm' |}
  else
    let? dbc := wrap LibErr (os_ReadFile dbcPath) in
    let? mm' := addMessageDb mm dbcPath dbc in
    Ok {| messages := mm' |}.

End Build.

(** ** The earlier revision of [Decode] *)

Module Legacy.
Section Decode.
Context `{L : Lib}.

(** [func (c Converter) Decode(b []byte) (interface{}, error)], on
    encoding/json. *)
Definition Decode (b : string) : M (gmap string SigValue) :=
  let* p := lift (wrap (InvalidJson b) (json_Unmarshal b)) in
  match Frames p with
  | None => lift (Err (NoFrames b))
  | Some frames => dispatch frames ∅
  end.

End Decode.
End Legacy.

(** ** Decode on the converter's memory

    [c.messages] is a [map[uint32]*descriptor.Message]: the table holds
    pointers, and [DecodeToMap] has a pointer receiver, so a call can write
    to the message it decodes with.  The parser is a local of the call
    ([var p fastjson.Parser]); the library keeps buffers in it from one parse
    to the next.  Here both are state: [Parser_ParseBytes] returns the parser
    it leaves behind and [Message_DecodeToMap] the message it leaves behind,
    and [Mem.Decode] is the source's [Decode] on a memory made of the table,
    the messages behind its pointers and the log. *)
Class Impure (L : Lib) : Type := {
  Parser : Type;
  zeroParser : Parser;                 (* var p fastjson.Parser *)
  Parser_ParseBytes : Parser -> string -> outcome LibError Value * Parser;
  Message_DecodeToMap :
    Message -> Frame -> gmap string SigValue -> Message * gmap string SigValue
}.

Module Mem.
Section Memory.
Context `{L : Lib} {I : Impure L}.

Definition ptr : Type := positive.

Record Memory : Type := mkMemory {
  c_messages : gmap Z ptr;             (* c.messages *)
  objects : gmap ptr Message;          (* what the pointers point to *)
  log : list LogEntry
}.

Definition P (A : Type) : Type := Memory -> outcome error A * Memory.

Definition ret {A} (a : A) : P A := fun mem => (Ok a, mem).

Definition bind {A B} (m : P A) (k : A -> P B) : P B :=
  fun mem =>
    match m mem with
    | (Ok a, mem') => k a mem'
    | (Err e, mem') => (Err e, mem')
    | (Panic p, mem') => (Panic p, mem')
    end.

Definition lift {A} (r : outcome error A) : P A := fun mem => (r, mem).

Definition logf (e : LogEntry) : P unit :=
  fun mem => (Ok tt, {| c_messages := c_messages mem; objects := objects mem;
                        log := log mem ++ [e] |}).

Definition readMessages : P (gmap Z ptr) := fun mem => (Ok (c_messages mem), mem).

(** [p.ParseBytes(b)] on the call's own parser: it starts as the zero
    [Parser] and is dropped when the call returns. *)
Definition ParseBytes_local (b : string) : P Value :=
  fun mem => (wrap (InvalidJson b) (Parser_ParseBytes zeroParser b).1, mem).

(** [desc.DecodeToMap(&frame, result)]: the message behind [desc] is read,
    and what the call leaves of it is what the pointer holds afterwards.  A
    pointer with nothing behind it is nil.  [&frame] is the address of the
    loop's own copy of the frame, so nothing the call does to it reaches
    [pf.Frames]. *)
Definition call_DecodeToMap (desc : ptr) (frame : Frame) (result : gmap string SigValue)
  : P (gmap string SigValue) :=
  fun mem =>
    match objects mem !! desc with
    | None => (Panic NilDereference, mem)
    | Some m =>
        (Ok (Message_DecodeToMap m frame result).2,
         {| c_messages := c_messages mem;
            objects := <[desc := (Message_DecodeToMap m frame result).1]> (objects mem);
            log := log mem |})
    end.

End Memory.

Notation "'let+' x ':=' m 'in' k" := (bind m (fun x => k))
  (at level 10, x name, m at level 100, k at level 200).

Section Decode.
Context `{L : Lib} {I : Impure L}.

Fixpoint visitMeta (kvs : list (string * Value)) (meta : gmap string any) : P (gmap string any) :=
  match kvs with
  | [] => ret meta
  | (k, v) :: rest =>
      match v with
      | VNumber s => visitMeta rest (<[k := AFloat64 s]> meta)
      | VString _ => visitMeta rest (<[k := AString (Value_String v)]> meta)
      | VTrue => visitMeta rest (<[k := ABool true]> meta)
      | VFalse => visitMeta rest (<[k := ABool false]> meta)
      | _ => let+ _ := logf (Warnf_unknown_type (Value_Type v) k) in visitMeta rest meta
      end
  end.

Definition parsePacked (b : string) : P packedFrames :=
  let+ v := ParseBytes_local b in
  let+ obj := lift (wrap (ShouldBeObject b) (Value_Object (Some v))) in
  let+ rawFrames := lift (wrap (ShouldHaveFramesArray b)
                            (Value_Array (Object_Get obj "frames"))) in
  let+ frames := lift (decodeFrames b rawFrames) in
  let pf_Frames : option (list Frame) := Some frames in
  match pf_Frames with
  | None => lift (Err (NoFrames b))
  | Some _ =>
      let+ metaObj := lift (wrap (ShouldHaveMetaObject b)
                              (Value_Object (Object_Get obj "meta"))) in
      let+ meta := visitMeta metaObj ∅ in
      ret {| Meta := Some meta; Frames := pf_Frames |}
  end.

Fixpoint dispatch (frames : list Frame) (result : gmap string SigValue)
  : P (gmap string SigValue) :=
  match frames with
  | [] => ret result
  | frame :: rest =>
      let+ mm := readMessages in
      match mm !! ID frame with
      | None =>
          let+ _ := logf (Errorf_cannot_find_message (ID frame)) in
          dispatch rest result
      | Some desc =>
          let+ result' := call_DecodeToMap desc frame result in
          dispatch rest result'
      end
  end.

(** [func (c Converter) Decode(b []byte) (interface{}, error)] *)
Definition Decode (b : string) : P (gmap string SigValue) :=
  let+ pf := parsePacked b in
  dispatch (default [] (Frames pf)) ∅.

End Decode.
End Mem.

(** ** A concrete instance, to run the model on bytes

    The theorems below hold for every [Lib] and [OS].  To evaluate the
    converter on actual payloads this module supplies one instance: a reader
    of JSON text into [Value] trees, a compiler of a toy table format in
    which every byte of a source declares the message with that ID (its one
    signal, named after the source, reads payload byte 0), and encoding/json
    on the payloads the examples use. *)

Module Demo.

Definition dquote : ascii := ascii_of_nat 34.
Definition backslash : ascii := ascii_of_nat 92.

(** Payloads are written with an apostrophe where the wire has a double
    quote. *)
Fixpoint js (s : string) : string :=
  match s with
  | EmptyString => EmptyString
  | String c rest => String (if Ascii.eqb c "'" then dquote else c) (js rest)
  end.

Definition isSpace (c : ascii) : bool :=
  let n := N_of_ascii c in
  ((n =? 32) || (n =? 9) || (n =? 10) || (n =? 13))%N.

Fixpoint skipWS (s : string) : string :=
  match s with
  | String c rest => if isSpace c then skipWS rest else s
  | EmptyString => s
  end.

Definition unescape (c : ascii) : ascii :=
  if Ascii.eqb c "n" then ascii_of_nat 10
  else if Ascii.eqb c "t" then ascii_of_nat 9
  else if Ascii.eqb c "r" then ascii_of_nat 13
  else c.

(** The text of a string up to its closing quote, and what follows. *)
Fixpoint readString (s : string) : option (string * string) :=
  match s with
  | EmptyString => None
  | String c rest =>
      if Ascii.eqb c dquote then Some (EmptyString, rest)
      else if Ascii.eqb c backslash then
        match rest with
        | String e rest' =>
            match readString rest' with
            | Some (body, tail) => Some (String (unescape e) body, tail)
            | None => None
            end
        | EmptyString => None
        end
      else
        match readString rest with
        | Some (body, tail) => Some (String c body, tail)
        | None => None
        end
  end.

Definition isNumberChar (c : ascii) : bool :=
  isDigit c || Ascii.eqb c "." || Ascii.eqb c "-" || Ascii.eqb c "+"
  || Ascii.eqb c "e" || Ascii.eqb c "E".

Fixpoint readNumber (s : string) : string * string :=
  match s with
  | String c rest =>
      if isNumberChar c
      then let '(n, tail) := readNumber rest in (String c n, tail)
      else (EmptyString, s)
  | EmptyString => (EmptyString, EmptyString)
  end.

Fixpoint stripPrefix (p s : string) : option string :=
  match p, s with
  | EmptyString, _ => Some s
  | String a p', String b s' => if Ascii.eqb a b then stripPrefix p' s' else None
  | String _ _, EmptyString => None
  end.

Section Readers.
Variable readValue : string -> option (Value * string).

(** The elements after an opening bracket or a comma. *)
Fixpoint readElems (n : nat) (s : string) : option (list Value * string) :=
  match n with
  | O => None
  | S n' =>
      match readValue s with
      | None => None
      | Some (v, t) =>
          match skipWS t with
          | String c t' =>
              if Ascii.eqb c "," then
                match readElems n' t' with
                | Some (vs, t'') => Some (v :: vs, t'')
                | None => None
                end
              else if Ascii.eqb c "]" then Some ([v], t')
              else None
          | EmptyString => None
          end
      end
  end.

(** The members after an opening brace or a comma. *)
Fixpoint readMembers (n : nat) (s : string) : option (list (string * Value) * string) :=
  match n with
  | O => None
  | S n' =>
      match skipWS s with
      | String q s1 =>
          if Ascii.eqb q dquote then
            match readString s1 with
            | None => None
            | Some (k, s2) =>
                match skipWS s2 with
                | String colon s3 =>
                    if Ascii.eqb colon ":" then
                      match readValue s3 with
                      | None => None
                      | Some (v, t) =>
                          match skipWS t with
                          | String c t' =>
                              if Ascii.eqb c "," then
                                match readMembers n' t' with
                                | Some (kvs, t'') => Some ((k, v) :: kvs, t'')
                                | None => None
                                end
                              else if Ascii.eqb c "}" then Some ([(k, v)], t')
                              else None
                          | EmptyString => None
                          end
                      end
                    else None
                | EmptyString => None
                end
            end
          else None
      | EmptyString => None
      end
  end.

End Readers.

Fixpoint readValue (fuel : nat) (s : string) : option (Value * string) :=
  match fuel with
  | O => None
  | S fuel' =>
      match skipWS s with
      | EmptyString => None
      | String c rest =>
          if Ascii.eqb c "{" then
            match skipWS rest with
            | String c' rest' =>
                if Ascii.eqb c' "}" then Some (VObject [], rest')
                else
                  match readMembers (readValue fuel') fuel' rest with
                  | Some (kvs, t) => Some (VObject kvs, t)
                  | None => None
                  end
            | EmptyString => None
            end
          else if Ascii.eqb c "[" then
            match skipWS rest with
            | String c' rest' =>
                if Ascii.eqb c' "]" then Some (VArray [], rest')
                else
                  match readElems (readValue fuel') fuel' rest with
                  | Some (vs, t) => Some (VArray vs, t)
                  | None => None
                  end
            | EmptyString => None
            end
          else if Ascii.eqb c dquote then
            match readString rest with
            | Some (str, t) => Some (VString str, t)
            | None => None
            end
          else if Ascii.eqb c "t" then
            option_map (fun t => (VTrue, t)) (stripPrefix "true" (String c rest))
          else if Ascii.eqb c "f" then
            option_map (fun t => (VFalse, t)) (stripPrefix "false" (String c rest))
          else if Ascii.eqb c "n" then
            option_map (fun t => (VNull, t)) (stripPrefix "null" (String c rest))
          else
            match readNumber (String c rest) with
            | (EmptyString, _) => None
            | (n, t) => Some (VNumber n, t)
            end
      end
  end.

Definition parse (b : string) : outcome LibError Value :=
  match readValue (S (String.length b)) b with
  | Some (v, tail) =>
      match skipWS tail with
      | EmptyString => Ok v
      | _ => Err (ParseError "unexpected tail")
      end
  | None => Err (ParseError "cannot parse JSON")
  end.

Record message : Type := mkMessage {
  mid : Z;
  signals : list (string * nat)     (* a signal's name and the payload byte it reads *)
}.

Definition decodeToMap (m : message) (f : Frame) (result : gmap string Z) : gmap string Z :=
  foldl (fun r s => <[fst s := (Data f) !!! snd s]> r) result (signals m).

Fixpoint compile (dbcPath dbcContent : string) : outcome LibError (list message) :=
  match dbcContent with
  | EmptyString => Ok []
  | String c rest =>
      match compile dbcPath rest with
      | Ok ms => Ok ({| mid := Z.of_N (N_of_ascii c); signals := [(dbcPath, O)] |} :: ms)
      | r => r
      end
  end.

(** encoding/json on a top-level object whose members, as far as they are
    named [meta] and [frames], are an object and an array of frame objects
    with a numeral [id] below 2^32 and a hexadecimal [data]; a member that is
    missing leaves its field nil.  Other payloads are outside what this
    instance is used for. *)
Definition unmarshalFrame (v : Value) : outcome LibError Frame :=
  match v with
  | VObject kvs =>
      match Object_Get kvs "id", Object_Get kvs "data" with
      | Some (VNumber s), Some (VString d) =>
          if negb (String.eqb s "") && allDigits s && (digitsValue 0 s <? 2 ^ 32) then
            match hex_Decode d with
            | Ok bs => Ok {| ID := digitsValue 0 s; Data := copy (Data zeroFrame) bs |}
            | Err e => Err e
            | Panic p => Panic p
            end
          else Err (UnmarshalError "cannot unmarshal number into uint32")
      | _, _ => Err (UnmarshalError "not covered")
      end
  | _ => Err (UnmarshalError "not covered")
  end.

Fixpoint unmarshalFrames (vs : list Value) : outcome LibError (list Frame) :=
  match vs with
  | [] => Ok []
  | v :: rest =>
      match unmarshalFrame v, unmarshalFrames rest with
      | Ok f, Ok fs => Ok (f :: fs)
      | Ok _, r => r
      | Err e, _ => Err e
      | Panic p, _ => Panic p
      end
  end.

Definition unmarshalMeta (kvs : list (string * Value)) : gmap string any :=
  foldl (fun m kv => <[fst kv := AJson (snd kv)]> m) ∅ kvs.

Definition unmarshal (b : string) : outcome LibError packedFrames :=
  match parse b with
  | Ok (VObject kvs) =>
      match
        match Object_Get kvs "frames" with
        | None => Ok None
        | Some (VArray vs) =>
            match unmarshalFrames vs with
            | Ok fs => Ok (Some fs)
            | Err e => Err e
            | Panic p => Panic p
            end
        | Some _ => Err (UnmarshalError "cannot unmarshal into []can.Frame")
        end
      with
      | Ok frames =>
          match Object_Get kvs "meta" with
          | None => Ok {| Meta := None; Frames := frames |}
          | Some (VObject m) => Ok {| Meta := Some (unmarshalMeta m); Frames := frames |}
          | Some _ => Err (UnmarshalError "cannot unmarshal into map[string]interface {}")
          end
      | Err e => Err e
      | Panic p => Panic p
      end
  | Ok _ => Err (UnmarshalError "not covered")
  | Err e => Err e
  | Panic p => Panic p
  end.

#[export] Instance lib64 : Lib := {|
  ParseBytes := parse;
  Value_String := fun v => match v with VString s => String dquote (s ++ String dquote "") | _ => "" end;
  UintSize := 64;
  Message := message;
  Message_ID := mid;
  SigValue := Z;
  DecodeToMap := decodeToMap;
  Compile := compile;
  json_Unmarshal := unmarshal
|}.

(** The same libraries on a platform whose [uint] has 32 bits. *)
Definition lib32 : Lib := {|
  ParseBytes := parse;
  Value_String := fun v => match v with VString s => String dquote (s ++ String dquote "") | _ => "" end;
  UintSize := 32;
  Message := message;
  Message_ID := mid;
  SigValue := Z;
  DecodeToMap := decodeToMap;
  Compile := compile;
  json_Unmarshal := unmarshal
|}.

(** A directory [dbc] holding [a.dbc], [b.DBC] and [notes.txt]. *)
#[export] Instance os : OS := {|
  os_Stat := fun p =>
    if String.eqb p "dbc" then Ok true
    else if String.eqb p "dbc/a.dbc" then Ok false
    else Err (ParseError "no such file or directory");
  filepath_Walk := fun p =>
    if String.eqb p "dbc"
    then [("dbc", Some 4096); ("dbc/a.dbc", Some 2); ("dbc/b.DBC", Some 2);
          ("dbc/notes.txt", Some 5)]
    else [];
  os_Read := fun p _ =>
    if String.eqb p "dbc/a.dbc" then Ok "de"
    else if String.eqb p "dbc/b.DBC" then Ok "ef"
    else Err (ParseError "no such file or directory");
  os_ReadFile := fun p =>
    if String.eqb p "dbc/a.dbc" then Ok "de"
    else Err (ParseError "no such file or directory")
|}.

Definition table : gmap Z message :=
  {[ 100 := {| mid := 100; signals := [("first", O); ("second", 1%nat)] |} ]}.

Definition heap0 : Heap := {| conv := {| messages := table |}; logged := [] |}.


Definition writing64 : Impure lib64 := {|
  Parser := nat;
  zeroParser := O;
  Parser_ParseBytes := fun p b => (parse b, S p);
  Message_DecodeToMap := fun m f r =>
    ({| mid := mid m; signals := ("again", O) :: signals m |}, decodeToMap m f r)
|}.

Definition mem0 : Mem.Memory (L := lib64) :=
  {| Mem.c_messages := {[ 100 := 1%positive ]};
     Mem.objects := {[ 1%positive := {| mid := 100;
                                        signals := [("first", O); ("second", 1%nat)] |} ]};
     Mem.log := [] |}.

(** Payloads. *)
Definition b_two : string :=
  js "{'meta':{'vin':'x1'},'frames':[{'id':7,'data':'ff'},{'id':100,'data':'0a0b'}]}".
Definition b_nometa : string := js "{'frames':[{'id':100,'data':'0a0b'}]}".
Definition b_noframes : string := js "{'meta':{}}".
Definition b_empty : string := js "{'meta':{},'frames':[]}".
Definition b_onlyframes : string := js "{'frames':[]}".
Definition b_nodata : string := js "{'meta':{},'frames':[{'id':100}]}".
Definition b_wide : string := js "{'meta':{},'frames':[{'id':4294967396,'data':'0a0b'}]}".
Definition b_long : string :=
  js "{'meta':{},'frames':[{'id':100,'data':'0102030405060708090A'}]}".

Definition b_badmeta : string := js "{'meta':[1],'frames':[{'id':100,'data':'0a0b'}]}".
Definition b_odd : string :=
  js "{'meta':{},'frames':[{'id':100,'data':'0a0b'},{'id':100,'data':'0a0'}]}".
Definition b_notarray : string := js "{'meta':{},'frames':{'id':100}}".

Definition m100 : message := {| mid := 100; signals := [("first", O); ("second", 1%nat)] |}.

Definition f7 : Frame := {| ID := 7; Data := [255; 0; 0; 0; 0; 0; 0; 0] |}.
Definition f100 : Frame := {| ID := 100; Data := [10; 11; 0; 0; 0; 0; 0; 0] |}.
Definition f100_zero : Frame := {| ID := 100; Data := [0; 0; 0; 0; 0; 0; 0; 0] |}.
Definition f100_long : Frame := {| ID := 100; Data := [1; 2; 3; 4; 5; 6; 7; 8] |}.

Definition pf_two : packedFrames :=
  {| Meta := Some {[ "vin" := AString (String dquote ("x1" ++ String dquote "")) ]};
     Frames := Some [f7; f100] |}.

Definition rawFrame_long : Value :=
  VObject [("id", VNumber "100"); ("data", VString "0102030405060708090A")].

Definition m_a (id : Z) : message := {| mid := id; signals := [("dbc/a.dbc", O)] |}.
Definition m_b (id : Z) : message := {| mid := id; signals := [("dbc/b.DBC", O)] |}.

Definition b_log : string :=
  js "{'meta':{'a':1,'c':[true]},'frames':[{'id':7,'data':'ff'},{'id':100,'data':'0a0b'}]}".
Definition b_dupmeta : string := js "{'meta':{'a':1,'a':true,'n':null},'frames':[]}".
Definition b_noid : string :=
  js "{'meta':{},'frames':[{'id':100,'data':'0a0b'},{'data':'00'}]}".

Definition pf_dupmeta : packedFrames :=
  {| Meta := Some {[ "a" := ABool true ]}; Frames := Some [] |}.
Definition heap_dupmeta : Heap :=
  {| conv := {| messages := table |}; logged := [Warnf_unknown_type TypeNull "n"] |}.

Definition rawFrame7 : Value := VObject [("id", VNumber "7"); ("data", VString "ff")].
Definition rawFrame100 : Value := VObject [("id", VNumber "100"); ("data", VString "0a0b")].


Definition os_two : OS := {|
  os_Stat := fun p => if String.eqb p "p" then Ok true else Err (ParseError "no such file");
  filepath_Walk := fun p =>
    if String.eqb p "p" then [("p", Some 4096); ("p/a.dbc", Some 1); ("p/b.dbc", Some 1)] else [];
  os_Read := fun p _ =>
    if String.eqb p "p/a.dbc" then Ok "d"
    else if String.eqb p "p/b.dbc" then Ok "e"
    else Err (ParseError "no such file");
  os_ReadFile := fun p => Err (ParseError "is a directory")
|}.


(** A directory [bad] whose second DBC file cannot be read. *)
Definition os_bad : OS := {|
  os_Stat := fun p => if String.eqb p "bad" then Ok true else Err (ParseError "no such file");
  filepath_Walk := fun p =>
    if String.eqb p "bad"
    then [("bad", Some 4096); ("bad/a.dbc", Some 2); ("bad/b.dbc", Some 7)]
    else [];
  os_Read := fun p _ =>
    if String.eqb p "bad/a.dbc" then Ok "de" else Err (ParseError "permission denied");
  os_ReadFile := fun p => Err (ParseError "is a directory")
|}.

End Demo.

(** ** Vocabulary of the statements *)

Section Vocabulary.
Context `{L : Lib}.

(** [b] reads as an object whose [frames] member is the array [rawFrames]
    and whose [meta] member is the object [meta]. *)
Definition batchOf (b : string) (rawFrames : list Value) (meta : list (string * Value)) : Prop :=
  ∃ kvs, ParseBytes b = Ok (VObject kvs)
         ∧ Object_Get kvs "frames" = Some (VArray rawFrames)
         ∧ Object_Get kvs "meta" = Some (VObject meta).

(** The frames whose ID has a table entry, in order, each with its entry. *)
Definition known (mm : gmap Z Message) (frames : list Frame) : list (Message * Frame) :=
  omap (fun f => match mm !! ID f with Some d => Some (d, f) | None => None end) frames.

(** The signals of a list of resolved frames, written in order. *)
Definition extract (result : gmap string SigValue) (dfs : list (Message * Frame))
  : gmap string SigValue :=
  foldl (fun r df => DecodeToMap df.1 df.2 r) result dfs.

(** The log lines of the frames whose ID has no entry. *)
Definition unknownLog (mm : gmap Z Message) (frames : list Frame) : list LogEntry :=
  omap (fun f => match mm !! ID f with
                 | Some _ => None
                 | None => Some (Errorf_cannot_find_message (ID f))
                 end) frames.

(** The characters [hex.Decode] accepts. *)
Definition isHexDigit (c : ascii) : bool := fromHexChar c <=? 15.

Fixpoint allHex (s : string) : bool :=
  match s with
  | EmptyString => true
  | String c rest => isHexDigit c && allHex rest
  end.

(** The value of the [i]-th pair of hexadecimal digits of [s]. *)
Definition hexPair (s : string) (i : nat) : Z :=
  match String.get (2 * i) s, String.get (2 * i + 1) s with
  | Some p, Some q => 16 * fromHexChar p + fromHexChar q
  | _, _ => 0
  end.

(** The first message with a given ID in a list of compiled sources. *)
Definition firstWithID (id : Z) (ms : list Message) : option Message :=
  head (filter (fun m => Message_ID m = id) ms).

End Vocabulary.

Section VocabularyOS.
Context `{L : Lib} `{F : OS}.

(** A source is read and compiled: one read into a buffer of [max] bytes
    gives [content], and the compiler gives the messages [db]. *)
Definition compiles (max : Z) (file : string) (db : list Message) : Prop :=
  ∃ content, os_Read file max = Ok content ∧ Compile file content = Ok db.

End VocabularyOS.

Section VocabularyMem.
Context `{L : Lib} {I : Impure L}.




(** The converter read through the pointers of its table. *)
Definition view (mem : Mem.Memory) : Heap :=
  {| conv := {| messages := omap (fun p => Mem.objects mem !! p) (Mem.c_messages mem) |};
     logged := Mem.log mem |}.


End VocabularyMem.

Section MoreVocabulary.
Context `{L : Lib}.

(** What the visit stores for a member: a number, a string or a boolean;
    nothing for the other types. *)
Definition metaEntry (v : Value) : option any :=
  match v with
  | VNumber s => Some (AFloat64 s)
  | VString _ => Some (AString (Value_String v))
  | VTrue => Some (ABool true)
  | VFalse => Some (ABool false)
  | _ => None
  end.

(** The members the visit stores, in order. *)
Definition supported (kvs : list (string * Value)) : list (string * any) :=
  omap (fun kv => match metaEntry kv.2 with
                  | Some a => Some (kv.1, a)
                  | None => None
                  end) kvs.

(** The warnings of the members the visit does not store, in order. *)
Definition metaWarnings (kvs : list (string * Value)) : list LogEntry :=
  omap (fun kv => match metaEntry kv.2 with
                  | Some _ => None
                  | None => Some (Warnf_unknown_type (Value_Type kv.2) kv.1)
                  end) kvs.

(** The last entry of an association list under a key. *)
Definition lastWithKey {A} (k : string) (l : list (string * A)) : option A :=
  snd <$> last (filter (fun kv => kv.1 = k) l).

(** A frame as the CAN bus has it: a 32-bit ID and 8 payload bytes. *)
Definition wellFormedFrame (f : Frame) : Prop :=
  0 ≤ ID f < 2 ^ 32
  ∧ length (Data f) = MaxDataLength
  ∧ Forall (fun x => 0 ≤ x < 256) (Data f).

(** The errors [Decode] builds around a payload [b]. *)
Definition decodeErrorOf (b : string) (e : error) : Prop :=
  match e with
  | InvalidJson b' _ | ShouldBeObject b' _ | ShouldHaveFramesArray b' _
  | FrameIdShouldBeUint b' _ | FrameDataShouldBeHex b' _
  | ShouldHaveMetaObject b' _ => b' = b
  | LibErr _ | FrameDataShouldBeString _ _ | NoFrames _ => False
  end.

(** Every entry of a table sits under the ID of its message. *)
Definition keyed (mm : gmap Z Message) : Prop :=
  ∀ id m, mm !! id = Some m → Message_ID m = id.

(** The entries of a walk that name a DBC file. *)
Definition selected (entries : list (string * option Z)) : list (string * option Z) :=
  filter (fun e => isDbc (filepath_Ext e.1) = true) entries.

(** The sizes the walk reports for a list of entries. *)
Definition reportedSizes (entries : list (string * option Z)) : list Z :=
  omap snd entries.

(** The largest of [max] and a list of sizes. *)
Definition largest (max : Z) (sizes : list Z) : Z :=
  foldl (fun m size => if m <? size then size else m) max sizes.

(** A source that cannot be loaded: the read fails, or the compiler
    refuses what was read. *)
Definition failsWith `{F : OS} (max : Z) (file : string) (e : LibError) : Prop :=
  os_Read file max = Err e
  ∨ ∃ content, os_Read file max = Ok content ∧ Compile file content = Err e.

(** No ID is defined by two different sources of the list. *)
Definition disjointSources (dbs : list (list Message)) : Prop :=
  ForallOrdPairs
    (fun db1 db2 => ∀ id, ¬ (id ∈ Message_ID <$> db1 ∧ id ∈ Message_ID <$> db2)) dbs.

End MoreVocabulary.

(** ** The dispatch loop *)

Section Dispatch.
Context `{L : Lib}.

(** The dispatch loop never fails: it returns the signals of the frames
    with a table entry and logs the others. *)
Lemma dispatch_spec frames result h :
  dispatch frames result h =
    (Ok (extract result (known (messages (conv h)) frames)),
     {| conv := conv h; logged := logged h ++ unknownLog (messages (conv h)) frames |}).
Proof.
  revert result h. induction frames as [| f rest IH]; intros result h; simpl.
  - unfold ret, known, unknownLog; simpl. rewrite app_nil_r. by destruct h.
  - unfold bind, readMessages, known, unknownLog; simpl.
    destruct (messages (conv h) !! ID f) as [d |] eqn:E; simpl.
    + rewrite IH. reflexivity.
    + rewrite IH; simpl. rewrite <- app_assoc. reflexivity.
Qed.

Lemma known_frames mm frames :
  (known mm frames).*2 = filter (fun f => is_Some (mm !! ID f)) frames.
Proof.
  induction frames as [| f rest IH]; [reflexivity |].
  unfold known in *; simpl.
  destruct (mm !! ID f) as [d |] eqn:E; simpl.
  - rewrite filter_cons_True by (rewrite E; eauto). f_equal. exact IH.
  - rewrite filter_cons_False by (rewrite E; intros [? ?]; congruence). exact IH.
Qed.

Lemma known_entries mm frames :
  Forall (fun df => mm !! ID df.2 = Some df.1) (known mm frames).
Proof.
  induction frames as [| f rest IH]; [constructor |].
  unfold known in *; simpl.
  destruct (mm !! ID f) as [d |] eqn:E; simpl; [constructor |]; assumption.
Qed.

Lemma known_none mm frames :
  Forall (fun f => mm !! ID f = None) frames → known mm frames = [].
Proof.
  induction 1 as [| f rest Hf _ IH]; [reflexivity |].
  unfold known in *; simpl. by rewrite Hf.
Qed.

End Dispatch.

(** ** Decode on a well-shaped batch *)

Section Batches.
Context `{L : Lib}.

Lemma visitMeta_total kvs meta h :
  ∃ m h', visitMeta kvs meta h = (Ok m, h') ∧ conv h' = conv h.
Proof.
  revert meta h. induction kvs as [| [k v] rest IH]; intros meta h; simpl.
  - by exists meta, h.
  - destruct v; try apply IH.
    all: unfold bind, logf; simpl.
    all: match goal with
         | |- context [visitMeta _ ?m0 ?h1] =>
             destruct (IH m0 h1) as (m & h' & -> & Hc); by exists m, h'
         end.
Qed.

(** Up to the [meta] member, a payload whose [frames] member is an array
    is decided by its frames alone. *)
Lemma parsePacked_frames b kvs rawFrames h :
  ParseBytes b = Ok (VObject kvs) →
  Object_Get kvs "frames" = Some (VArray rawFrames) →
  parsePacked b h =
    match decodeFrames b rawFrames with
    | Ok frames =>
        match wrap (ShouldHaveMetaObject b) (Value_Object (Object_Get kvs "meta")) with
        | Ok metaObj =>
            bind (visitMeta metaObj ∅)
              (fun meta => ret {| Meta := Some meta; Frames := Some frames |}) h
        | Err e => (Err e, h)
        | Panic p => (Panic p, h)
        end
    | Err e => (Err e, h)
    | Panic p => (Panic p, h)
    end.
Proof.
  intros HP HF. unfold parsePacked, bind, lift. rewrite HP; simpl. rewrite HF; simpl.
  destruct (decodeFrames b rawFrames); reflexivity.
Qed.

Lemma parsePacked_batch b rawFrames meta frames h :
  batchOf b rawFrames meta →
  decodeFrames b rawFrames = Ok frames →
  ∃ m h', parsePacked b h = (Ok {| Meta := Some m; Frames := Some frames |}, h')
          ∧ conv h' = conv h.
Proof.
  intros (kvs & HP & HF & HM) HD.
  rewrite (parsePacked_frames _ _ _ _ HP HF), HD, HM; simpl.
  unfold bind. destruct (visitMeta_total meta ∅ h) as (m & h' & -> & Hc).
  by exists m, h'.
Qed.

Lemma Decode_batch b rawFrames meta frames h :
  batchOf b rawFrames meta →
  decodeFrames b rawFrames = Ok frames →
  (Decode b h).1 = Ok (extract ∅ (known (messages (conv h)) frames)).
Proof.
  intros HB HD.
  destruct (parsePacked_batch _ _ _ _ h HB HD) as (m & h' & HPk & Hc).
  unfold Decode, bind. rewrite HPk; simpl.
  rewrite dispatch_spec; simpl. by rewrite Hc.
Qed.

(** The frames a successful parse returns are a slice, never nil. *)
Lemma parsePacked_Frames b h pf h1 :
  parsePacked b h = (Ok pf, h1) → ∃ frames, Frames pf = Some frames ∧ conv h1 = conv h.
Proof.
  unfold parsePacked, bind, lift, wrap.
  destruct (ParseBytes b) as [v | |]; try discriminate.
  destruct (Value_Object (Some v)) as [obj | |]; try discriminate.
  destruct (Value_Array (Object_Get obj "frames")) as [rawFrames | |]; try discriminate.
  destruct (decodeFrames b rawFrames) as [frames | |]; try discriminate.
  destruct (Value_Object (Object_Get obj "meta")) as [metaObj | |]; try discriminate.
  destruct (visitMeta_total metaObj ∅ h) as (m & h' & -> & Hc).
  unfold ret. intros [= <- <-]. by exists frames.
Qed.

End Batches.

(** ** The claims *)

Section Claims.
Context `{L : Lib}.

(** C6.  When the payload parses, Decode succeeds whatever the IDs are: its
    result is the signals of the frames whose ID has a table entry, taken in
    order and each decoded with its entry; the frames without an entry are
    skipped, and when no frame has one the result is the empty map. *)
Theorem Decode_skips_unknown (b : string) (h h1 : Heap) (pf : packedFrames) :
  parsePacked b h = (Ok pf, h1) →
  ∃ frames, Frames pf = Some frames
    ∧ (Decode b h).1 = Ok (extract ∅ (known (messages (conv h)) frames))
    ∧ (known (messages (conv h)) frames).*2
        = filter (fun f => is_Some (messages (conv h) !! ID f)) frames
    ∧ Forall (fun df => messages (conv h) !! ID df.2 = Some df.1)
        (known (messages (conv h)) frames)
    ∧ (Forall (fun f => messages (conv h) !! ID f = None) frames →
       (Decode b h).1 = Ok (∅ : gmap string SigValue)).
Proof.
  intros HP. destruct (parsePacked_Frames _ _ _ _ HP) as (frames & HF & Hc).
  exists frames. split; [exact HF |].
  assert (HD : (Decode b h).1 = Ok (extract ∅ (known (messages (conv h)) frames))).
  { unfold Decode, bind. rewrite HP, HF; simpl. rewrite dispatch_spec; simpl.
    by rewrite Hc. }
  split; [exact HD |]. split; [apply known_frames |]. split; [apply known_entries |].
  intros Hnone. rewrite HD, (known_none _ _ Hnone). reflexivity.
Qed.

(** C2, as amended.  For every input Encode panics with the message
    [implement me]: the call returns neither bytes nor an error value, and
    it leaves the converter and the log alone. *)
Theorem Encode_panics (A : Type) (x : A) (h : Heap) :
  Encode x h = (Panic (PanicString "implement me"), h).
Proof. reflexivity. Qed.

(** C1.  A payload with acceptable frames and no [meta] member does not
    decode: reading the absent member as an object dereferences nil, and the
    call panics. *)
Theorem Decode_without_meta_panics (b : string) (h : Heap)
    (kvs : list (string * Value)) (rawFrames : list Value) (frames : list Frame) :
  ParseBytes b = Ok (VObject kvs) →
  Object_Get kvs "frames" = Some (VArray rawFrames) →
  decodeFrames b rawFrames = Ok frames →
  Object_Get kvs "meta" = None →
  Decode b h = (Panic NilDereference, h).
Proof.
  intros HP HF HD HM. unfold Decode, bind.
  rewrite (parsePacked_frames _ _ _ _ HP HF), HD, HM. reflexivity.
Qed.

(** C3.  A payload without a [frames] member makes Decode panic, and a
    payload whose [frames] member is the empty array (and whose [meta] member
    is an object) decodes to the empty map: neither is answered with an
    error. *)
Theorem Decode_no_frames (b : string) (h : Heap) (kvs : list (string * Value)) :
  ParseBytes b = Ok (VObject kvs) →
  (Object_Get kvs "frames" = None → Decode b h = (Panic NilDereference, h))
  ∧ (Object_Get kvs "frames" = Some (VArray []) →
     ∀ meta, Object_Get kvs "meta" = Some (VObject meta) →
       (Decode b h).1 = Ok (∅ : gmap string SigValue)).
Proof.
  intros HP. split.
  - intros HF. unfold Decode, parsePacked, bind, lift.
    rewrite HP; simpl. rewrite HF. reflexivity.
  - intros HF meta HM.
    rewrite (Decode_batch b [] meta []); [reflexivity | by exists kvs | reflexivity].
Qed.

End Claims.

(** ** Hexadecimal payloads *)

Section Hex.

Lemma string_pair_ind (P : string → Prop) :
  P EmptyString →
  (∀ c, P (String c EmptyString)) →
  (∀ p q rest, P rest → P (String p (String q rest))) →
  ∀ s, P s.
Proof.
  intros H0 H1 H2.
  assert (H : ∀ s, P s ∧ ∀ c, P (String c s)).
  { induction s as [| c s [IHs IHc]]; [by split |].
    split; [apply IHc |]. intros c'. by apply H2. }
  intros s. apply H.
Qed.

Lemma fromHexChar_nonneg c : 0 ≤ fromHexChar c.
Proof.
  unfold fromHexChar.
  repeat match goal with
         | |- context [if ?t then _ else _] => destruct t eqn:?
         end; lia.
Qed.

Lemma lor_shiftl_nibbles a b :
  0 ≤ a ≤ 15 → 0 ≤ b ≤ 15 → Z.lor (Z.shiftl a 4) b = 16 * a + b.
Proof.
  intros Ha Hb.
  assert (Ea : a = 0 ∨ a = 1 ∨ a = 2 ∨ a = 3 ∨ a = 4 ∨ a = 5 ∨ a = 6 ∨ a = 7 ∨ a = 8
               ∨ a = 9 ∨ a = 10 ∨ a = 11 ∨ a = 12 ∨ a = 13 ∨ a = 14 ∨ a = 15) by lia.
  assert (Eb : b = 0 ∨ b = 1 ∨ b = 2 ∨ b = 3 ∨ b = 4 ∨ b = 5 ∨ b = 6 ∨ b = 7 ∨ b = 8
               ∨ b = 9 ∨ b = 10 ∨ b = 11 ∨ b = 12 ∨ b = 13 ∨ b = 14 ∨ b = 15) by lia.
  clear Ha Hb.
  repeat (destruct Ea as [-> | Ea]); try subst a;
    repeat (destruct Eb as [-> | Eb]); try subst b; reflexivity.
Qed.

Lemma hexPair_0 p q rest :
  hexPair (String p (String q rest)) 0 = 16 * fromHexChar p + fromHexChar q.
Proof. reflexivity. Qed.

Lemma hexPair_S p q rest i :
  hexPair (String p (String q rest)) (S i) = hexPair rest i.
Proof.
  unfold hexPair.
  replace (2 * S i)%nat with (S (S (2 * i))) by lia.
  replace (S (S (2 * i)) + 1)%nat with (S (S (2 * i + 1))) by lia.
  reflexivity.
Qed.

(** A string of hexadecimal digits of even length decodes, to half as many
    bytes, the [i]-th being the value of the [i]-th pair of digits. *)
Lemma hex_Decode_ok s :
  Nat.even (String.length s) = true → allHex s = true →
  ∃ bs, hex_Decode s = Ok bs
        ∧ length bs = (String.length s / 2)%nat
        ∧ ∀ i, (i < length bs)%nat → bs !! i = Some (hexPair s i).
Proof.
  induction s as [| c | p q rest IH] using string_pair_ind.
  - intros _ _. exists []. repeat split. intros i Hi. simpl in Hi. lia.
  - intros Hev. discriminate Hev.
  - intros Hev Hhex.
    change (Nat.even (String.length rest) = true) in Hev.
    simpl in Hhex. apply andb_prop in Hhex as [Hp Hhex].
    apply andb_prop in Hhex as [Hq Hhex].
    destruct (IH Hev Hhex) as (bs & HD & Hlen & Hnth).
    unfold isHexDigit in Hp, Hq. apply Z.leb_le in Hp, Hq.
    exists (16 * fromHexChar p + fromHexChar q :: bs).
    split; [| split].
    + cbn [hex_Decode].
      destruct (15 <? fromHexChar p) eqn:E1; [apply Z.ltb_lt in E1; lia |].
      destruct (15 <? fromHexChar q) eqn:E2; [apply Z.ltb_lt in E2; lia |].
      rewrite HD. f_equal. f_equal.
      apply lor_shiftl_nibbles; split; auto using fromHexChar_nonneg.
    + cbn [length String.length]. rewrite Hlen.
      replace (S (S (String.length rest))) with (String.length rest + 1 * 2)%nat by lia.
      rewrite Nat.div_add by lia. lia.
    + intros [| i] Hi.
      * by rewrite hexPair_0.
      * rewrite hexPair_S. simpl. apply Hnth. simpl in Hi. lia.
Qed.

(** A string of odd length, or with a character that is no hexadecimal
    digit, is refused. *)
Lemma hex_Decode_err s :
  Nat.even (String.length s) = false ∨ allHex s = false →
  ∃ e, hex_Decode s = Err e.
Proof.
  induction s as [| c | p q rest IH] using string_pair_ind.
  - intros [H | H]; discriminate H.
  - intros _. cbn [hex_Decode]. destruct (15 <? fromHexChar c); eauto.
  - intros H. cbn [hex_Decode].
    destruct (15 <? fromHexChar p) eqn:E1; [eauto |].
    destruct (15 <? fromHexChar q) eqn:E2; [eauto |].
    destruct IH as [e ->]; [| eauto].
    destruct H as [H | H]; [left; exact H | right].
    simpl in H. unfold isHexDigit in H.
    apply Z.ltb_ge in E1, E2.
    destruct (fromHexChar p <=? 15) eqn:E3; [| apply Z.leb_gt in E3; lia].
    destruct (fromHexChar q <=? 15) eqn:E4; [| apply Z.leb_gt in E4; lia].
    exact H.
Qed.

Lemma copy_zero bs :
  copy (Data zeroFrame) bs
  = (take MaxDataLength bs ++ replicate (MaxDataLength - length bs) 0)%list.
Proof.
  unfold copy. change (Data zeroFrame) with (replicate MaxDataLength 0).
  rewrite length_replicate, drop_replicate. reflexivity.
Qed.

End Hex.

(** ** Frames *)

Section FrameClaims.
Context `{L : Lib}.

(** The loop body, once the id is read: the frame is decided by the bytes
    of the [data] member. *)
Lemma decodeFrame_id b rawFrame tid :
  Value_Uint (Value_Get (Some rawFrame) "id") = Ok tid →
  decodeFrame b rawFrame =
    match hex_Decode (Value_GetStringBytes (Value_Get (Some rawFrame) "data")) with
    | Ok bs => Ok {| ID := uint32 tid; Data := copy (Data zeroFrame) bs |}
    | Err e => Err (FrameDataShouldBeHex b e)
    | Panic p => Panic p
    end.
Proof.
  intros Hid. unfold decodeFrame. rewrite Hid. cbn [wrap obind].
  destruct (hex_Decode _); reflexivity.
Qed.

Lemma GetStringBytes_not_string (v : option Value) :
  (∀ s, v ≠ Some (VString s)) → Value_GetStringBytes v = "".
Proof.
  intros H. destruct v as [[] |]; try reflexivity. by destruct (H s).
Qed.

(** A numeral of digits that fits [uint] is what [Uint] returns. *)
Lemma Value_Uint_digits s :
  s ≠ "" → allDigits s = true →
  0 < digitsValue 0 s < 2 ^ 64 → digitsValue 0 s < 2 ^ UintSize →
  Value_Uint (Some (VNumber s)) = Ok (digitsValue 0 s).
Proof.
  intros Hne Hd Hr Hu. unfold Value_Uint, ParseUint64BestEffort.
  destruct (String.eqb_spec s ""); [done |]. rewrite Hd. cbn [negb andb].
  destruct (digitsValue 0 s <? 2 ^ 64) eqn:E; [| apply Z.ltb_ge in E; lia].
  destruct (digitsValue 0 s =? 0) eqn:E0; [apply Z.eqb_eq in E0; lia |].
  cbn [andb]. rewrite Z.mod_small by lia. by rewrite Z.eqb_refl.
Qed.

(** C8.  A frame element with a readable id and a [data] string of an even
    number of hexadecimal digits gives a frame with no error; its payload has
    8 bytes; byte [i] is the [i]-th decoded byte as long as there is one, so
    of more than 8 decoded bytes the first 8 are kept; the bytes past the
    decoded ones are zero. *)
Theorem decodeFrame_payload (b : string) (rawFrame : Value) (tid : Z) (s : string) :
  Value_Uint (Value_Get (Some rawFrame) "id") = Ok tid →
  Value_Get (Some rawFrame) "data" = Some (VString s) →
  Nat.even (String.length s) = true →
  allHex s = true →
  ∃ bs f,
    hex_Decode s = Ok bs
    ∧ length bs = (String.length s / 2)%nat
    ∧ (∀ i, (i < length bs)%nat → bs !! i = Some (hexPair s i))
    ∧ decodeFrame b rawFrame = Ok f
    ∧ ID f = uint32 tid
    ∧ length (Data f) = 8%nat
    ∧ (∀ i, (i < 8)%nat → (i < length bs)%nat → Data f !! i = bs !! i)
    ∧ (∀ i, (length bs ≤ i < 8)%nat → Data f !! i = Some 0).
Proof.
  intros Hid Hdata Hev Hhex.
  destruct (hex_Decode_ok s Hev Hhex) as (bs & HD & Hlen & Hnth).
  exists bs, {| ID := uint32 tid; Data := copy (Data zeroFrame) bs |}.
  rewrite (decodeFrame_id _ _ _ Hid), Hdata. cbn [Value_GetStringBytes]. rewrite HD.
  repeat split; try assumption; cbn [Data]; rewrite copy_zero; unfold MaxDataLength.
  - rewrite length_app, length_take, length_replicate. lia.
  - intros i Hi Hb. rewrite lookup_app_l by (rewrite length_take; lia).
    by rewrite lookup_take_lt.
  - intros i [Hge Hlt]. rewrite lookup_app_r by (rewrite length_take; lia).
    rewrite length_take. apply lookup_replicate_2. lia.
Qed.

(** C4.  A frame element whose [data] member is absent, or is not a string,
    raises no error: the bytes read are empty, and the batch decodes as if the
    frame carried an all-zero payload. *)
Theorem Decode_accepts_missing_data (b : string) (h : Heap)
    (rawFrame : Value) (meta : list (string * Value)) (tid : Z) :
  batchOf b [rawFrame] meta →
  Value_Uint (Value_Get (Some rawFrame) "id") = Ok tid →
  (∀ s, Value_Get (Some rawFrame) "data" ≠ Some (VString s)) →
  decodeFrame b rawFrame = Ok {| ID := uint32 tid; Data := replicate MaxDataLength 0 |}
  ∧ (Decode b h).1 =
      Ok (extract ∅ (known (messages (conv h))
                       [{| ID := uint32 tid; Data := replicate MaxDataLength 0 |}])).
Proof.
  intros HB Hid Hdata.
  assert (HF : decodeFrame b rawFrame
               = Ok {| ID := uint32 tid; Data := replicate MaxDataLength 0 |}).
  { rewrite (decodeFrame_id _ _ _ Hid), (GetStringBytes_not_string _ Hdata).
    reflexivity. }
  split; [exact HF |].
  apply (Decode_batch b [rawFrame] meta); [exact HB |].
  cbn [decodeFrames]. rewrite HF. reflexivity.
Qed.

(** C5.  Where [uint] has 64 bits, an id of 2^32 or more (and below 2^64)
    raises no error: the frame's ID is the id reduced modulo 2^32, which is
    not the id, and the batch decodes. *)
Theorem Decode_wraps_wide_id (b : string) (h : Heap) (rawFrame : Value)
    (meta : list (string * Value)) (s : string) (bs : list Z) :
  UintSize = 64 →
  batchOf b [rawFrame] meta →
  Value_Get (Some rawFrame) "id" = Some (VNumber s) →
  s ≠ "" → allDigits s = true →
  2 ^ 32 ≤ digitsValue 0 s < 2 ^ 64 →
  hex_Decode (Value_GetStringBytes (Value_Get (Some rawFrame) "data")) = Ok bs →
  ∃ f, decodeFrame b rawFrame = Ok f
       ∧ ID f = digitsValue 0 s mod 2 ^ 32
       ∧ ID f ≠ digitsValue 0 s
       ∧ (Decode b h).1 = Ok (extract ∅ (known (messages (conv h)) [f])).
Proof.
  intros HU HB Hid Hne Hd Hr Hhex.
  assert (HV : Value_Uint (Value_Get (Some rawFrame) "id") = Ok (digitsValue 0 s)).
  { rewrite Hid. apply Value_Uint_digits; try assumption; rewrite ?HU; lia. }
  exists {| ID := uint32 (digitsValue 0 s); Data := copy (Data zeroFrame) bs |}.
  assert (HF : decodeFrame b rawFrame
               = Ok {| ID := uint32 (digitsValue 0 s); Data := copy (Data zeroFrame) bs |}).
  { by rewrite (decodeFrame_id _ _ _ HV), Hhex. }
  repeat split.
  - exact HF.
  - cbn [ID]. unfold uint32.
    pose proof (Z.mod_pos_bound (digitsValue 0 s) (2 ^ 32) ltac:(lia)). lia.
  - apply (Decode_batch b [rawFrame] meta); [exact HB |].
    cbn [decodeFrames]. rewrite HF. reflexivity.
Qed.

End FrameClaims.

(** ** The message table *)

Section TableClaims.
Context `{L : Lib} `{F : OS}.

Lemma firstWithID_cons id m ms :
  firstWithID id (m :: ms)
  = if decide (Message_ID m = id) then Some m else firstWithID id ms.
Proof.
  unfold firstWithID. rewrite filter_cons. by destruct (decide _).
Qed.

Lemma firstWithID_app id ms1 ms2 :
  firstWithID id (ms1 ++ ms2)
  = match firstWithID id ms1 with
    | Some m => Some m
    | None => firstWithID id ms2
    end.
Proof.
  induction ms1 as [| m ms1 IH]; [reflexivity |].
  cbn [app]. rewrite !firstWithID_cons. by destruct (decide _).
Qed.

Lemma firstWithID_concat_none id (dbs : list (list Message)) :
  Forall (fun db => firstWithID id db = None) dbs →
  firstWithID id (concat dbs) = None.
Proof.
  induction 1 as [| db dbs Hdb _ IH]; [reflexivity |].
  cbn [concat]. by rewrite firstWithID_app, Hdb.
Qed.

(** The merge keeps what the table holds and adds, for a new ID, the first
    message of the source that has it. *)
Lemma addMessages_lookup mm ms id :
  addMessages mm ms !! id
  = match mm !! id with
    | Some m => Some m
    | None => firstWithID id ms
    end.
Proof.
  revert mm. induction ms as [| m ms IH]; intros mm; cbn [addMessages].
  - unfold firstWithID; simpl. by destruct (mm !! id).
  - rewrite firstWithID_cons.
    destruct (mm !! Message_ID m) as [m0 |] eqn:E.
    + rewrite IH. destruct (decide (Message_ID m = id)) as [<- | Hne]; [| done].
      by rewrite E.
    + rewrite IH. destruct (decide (Message_ID m = id)) as [<- | Hne].
      * by rewrite lookup_insert_eq, E.
      * by rewrite lookup_insert_ne.
Qed.

Lemma addMessages_app mm ms1 ms2 :
  addMessages mm (ms1 ++ ms2) = addMessages (addMessages mm ms1) ms2.
Proof.
  revert mm. induction ms1 as [| m ms1 IH]; intros mm; [reflexivity |].
  cbn [app addMessages]. destruct (mm !! Message_ID m); apply IH.
Qed.

Lemma loadFiles_ok mm max files dbs :
  Forall2 (compiles max) files dbs →
  loadFiles mm max files = Ok (addMessages mm (concat dbs)).
Proof.
  intros H. revert mm. induction H as [| file db files dbs (content & HR & HC) _ IH];
    intros mm; [reflexivity |].
  cbn [loadFiles concat]. rewrite HR. cbn [wrap obind].
  unfold addMessageDb. rewrite HC. cbn [wrap obind].
  rewrite IH. by rewrite addMessages_app.
Qed.

(** C7.  When every source found under a directory reads and compiles, the
    converter is built without error, and for every ID its table holds the
    message of the first source, in the order the walk found them, that
    defines the ID: what later sources say about that ID is dropped. *)
Theorem first_source_wins (dbcPath : string) (files : list string) (max : Z)
    (dbs : list (list Message)) :
  os_Stat dbcPath = Ok true →
  walkFn (filepath_Walk dbcPath) [] 0 = Ok (files, max) →
  Forall2 (compiles max) files dbs →
  ∃ c, NewConverter dbcPath = Ok c
    ∧ (∀ id, messages c !! id = firstWithID id (concat dbs))
    ∧ ∀ id i db m,
        dbs !! i = Some db →
        firstWithID id db = Some m →
        (∀ j db', (j < i)%nat → dbs !! j = Some db' → firstWithID id db' = None) →
        messages c !! id = Some m.
Proof.
  intros HS HW HC.
  exists {| messages := addMessages ∅ (concat dbs) |}.
  assert (Hall : ∀ id, addMessages (∅ : gmap Z Message) (concat dbs) !! id
                       = firstWithID id (concat dbs)).
  { intros id. by rewrite addMessages_lookup, lookup_empty. }
  split; [| split].
  - unfold NewConverter. rewrite HS. cbn [wrap obind]. rewrite HW. cbn [obind].
    by rewrite (loadFiles_ok _ _ _ _ HC).
  - exact Hall.
  - intros id i db m Hi Hm Hbefore. cbn [messages]. rewrite Hall.
    rewrite <- (take_drop_middle dbs i db Hi), concat_app. cbn [concat].
    rewrite firstWithID_app, firstWithID_concat_none.
    + by rewrite firstWithID_app, Hm.
    + apply Forall_forall. intros db' Hin.
      apply list_elem_of_lookup in Hin as [j Hj].
      pose proof (lookup_lt_Some _ _ _ Hj) as Hlt. rewrite length_take in Hlt.
      apply (Hbefore j); [lia |].
      rewrite lookup_take_lt in Hj by lia. exact Hj.
Qed.

End TableClaims.

(** ** The two revisions of Decode *)

Section LegacyClaims.
Context `{L : Lib}.

(** C10.  On a payload that is an object with an empty [frames] array and
    nothing else, which encoding/json reads as a [packedFrames] with an empty
    slice and no meta, the earlier revision succeeds with the empty map and
    the current one panics. *)
Theorem Decode_revisions_differ (b : string) (h : Heap) :
  ParseBytes b = Ok (VObject [("frames", VArray [])]) →
  json_Unmarshal b = Ok {| Meta := None; Frames := Some [] |} →
  (Legacy.Decode b h).1 = Ok (∅ : gmap string SigValue)
  ∧ (Decode b h).1 = Panic NilDereference.
Proof.
  intros HP HU. split.
  - unfold Legacy.Decode, bind, lift. rewrite HU. reflexivity.
  - unfold Decode, bind.
    rewrite (parsePacked_frames b _ [] h HP); reflexivity.
Qed.

End LegacyClaims.

(** ** What the parser does reject *)

Section Rejections.
Context `{L : Lib}.

Lemma decodeFrames_stops b pre rawFrame post fs e :
  decodeFrames b pre = Ok fs →
  decodeFrame b rawFrame = Err e →
  decodeFrames b (pre ++ rawFrame :: post) = Err e.
Proof.
  revert fs. induction pre as [| r pre IH]; intros fs Hpre Hbad; cbn [app decodeFrames].
  - by rewrite Hbad.
  - cbn [decodeFrames] in Hpre.
    destruct (decodeFrame b r) as [f | |]; cbn [obind] in *; try discriminate.
    destruct (decodeFrames b pre) as [fs' | |]; cbn [obind] in *; try discriminate.
    by rewrite (IH fs').
Qed.

(** X1.  A [meta] member that is not an object is answered with the meta error,
    once the frames have been read. *)
Theorem Decode_rejects_bad_meta (b : string) (h : Heap) (kvs : list (string * Value))
    (rawFrames : list Value) (frames : list Frame) (v : Value) :
  ParseBytes b = Ok (VObject kvs) →
  Object_Get kvs "frames" = Some (VArray rawFrames) →
  decodeFrames b rawFrames = Ok frames →
  Object_Get kvs "meta" = Some v →
  Value_Type v ≠ TypeObject →
  Decode b h = (Err (ShouldHaveMetaObject b (WrongType TypeObject (Value_Type v))), h).
Proof.
  intros HP HF HD HM Hty. unfold Decode, bind.
  rewrite (parsePacked_frames _ _ _ _ HP HF), HD, HM.
  destruct v; try reflexivity. by destruct Hty.
Qed.

(** X2.  A [frames] member that is not an array is answered with the frames
    error. *)
Theorem Decode_rejects_non_array_frames (b : string) (h : Heap)
    (kvs : list (string * Value)) (v : Value) :
  ParseBytes b = Ok (VObject kvs) →
  Object_Get kvs "frames" = Some v →
  Value_Type v ≠ TypeArray →
  Decode b h = (Err (ShouldHaveFramesArray b (WrongType TypeArray (Value_Type v))), h).
Proof.
  intros HP HF Hty. unfold Decode, parsePacked, bind, lift.
  rewrite HP; simpl. rewrite HF.
  destruct v; try reflexivity. by destruct Hty.
Qed.

(** X3.  A frame whose [data] string has odd length, or holds a character that
    is no hexadecimal digit, ends the call with the hex error when the frames
    before it are read without error; no signals are returned. *)
Theorem Decode_rejects_bad_hex (b : string) (h : Heap) (kvs : list (string * Value))
    (pre post : list Value) (fs : list Frame) (rawFrame : Value) (tid : Z) (s : string) :
  ParseBytes b = Ok (VObject kvs) →
  Object_Get kvs "frames" = Some (VArray (pre ++ rawFrame :: post)) →
  decodeFrames b pre = Ok fs →
  Value_Uint (Value_Get (Some rawFrame) "id") = Ok tid →
  Value_Get (Some rawFrame) "data" = Some (VString s) →
  Nat.even (String.length s) = false ∨ allHex s = false →
  ∃ e, Decode b h = (Err (FrameDataShouldBeHex b e), h).
Proof.
  intros HP HF Hpre Hid Hdata Hbad.
  destruct (hex_Decode_err s Hbad) as [e He]. exists e.
  assert (HD : decodeFrame b rawFrame = Err (FrameDataShouldBeHex b e)).
  { rewrite (decodeFrame_id _ _ _ Hid), Hdata. cbn [Value_GetStringBytes].
    by rewrite He. }
  unfold Decode, bind.
  rewrite (parsePacked_frames _ _ _ _ HP HF).
  by rewrite (decodeFrames_stops _ _ _ post _ _ Hpre HD).
Qed.

(** X4.  An id written as a numeral below 2^32 becomes the frame's ID
    unchanged, whether [uint] has 32 or 64 bits. *)
Theorem decodeFrame_id_exact (b : string) (rawFrame : Value) (s : string) (bs : list Z) :
  UintSize = 32 ∨ UintSize = 64 →
  Value_Get (Some rawFrame) "id" = Some (VNumber s) →
  s ≠ "" → allDigits s = true →
  0 < digitsValue 0 s < 2 ^ 32 →
  hex_Decode (Value_GetStringBytes (Value_Get (Some rawFrame) "data")) = Ok bs →
  ∃ f, decodeFrame b rawFrame = Ok f ∧ ID f = digitsValue 0 s.
Proof.
  intros HU Hid Hne Hd Hr Hhex.
  assert (HV : Value_Uint (Value_Get (Some rawFrame) "id") = Ok (digitsValue 0 s)).
  { rewrite Hid. apply Value_Uint_digits; try assumption; [lia |].
    destruct HU as [-> | ->]; lia. }
  eexists. split.
  - by rewrite (decodeFrame_id _ _ _ HV), Hhex.
  - cbn [ID]. unfold uint32. apply Z.mod_small. lia.
Qed.

(** X5.  An id that is not a JSON number is answered with the id error. *)
Theorem decodeFrame_rejects_non_number_id (b : string) (rawFrame v : Value) :
  Value_Get (Some rawFrame) "id" = Some v →
  Value_Type v ≠ TypeNumber →
  decodeFrame b rawFrame
  = Err (FrameIdShouldBeUint b (WrongType TypeNumber (Value_Type v))).
Proof.
  intros Hid Hty. unfold decodeFrame. rewrite Hid.
  destruct v; try reflexivity. by destruct Hty.
Qed.

(** X6.  Where [uint] has 32 bits, an id of 2^32 or more is answered with the id
    error. *)
Theorem decodeFrame_rejects_wide_id_32 (b : string) (rawFrame : Value) (s : string) :
  UintSize = 32 →
  Value_Get (Some rawFrame) "id" = Some (VNumber s) →
  s ≠ "" → allDigits s = true →
  2 ^ 32 ≤ digitsValue 0 s →
  ∃ e, decodeFrame b rawFrame = Err (FrameIdShouldBeUint b e).
Proof.
  intros HU Hid Hne Hd Hr. unfold decodeFrame. rewrite Hid.
  unfold Value_Uint, ParseUint64BestEffort.
  destruct (String.eqb_spec s ""); [done |]. rewrite Hd. cbn [negb andb].
  destruct (digitsValue 0 s <? 2 ^ 64) eqn:E.
  - destruct (digitsValue 0 s =? 0) eqn:E0; [apply Z.eqb_eq in E0; lia |].
    cbn [andb]. rewrite HU.
    destruct (digitsValue 0 s mod 2 ^ 32 =? digitsValue 0 s) eqn:E1.
    + apply Z.eqb_eq in E1.
      pose proof (Z.mod_pos_bound (digitsValue 0 s) (2 ^ 32) ltac:(lia)). lia.
    + eexists. reflexivity.
  - cbn [Z.eqb andb]. destruct (negb (s =? "0")%string) eqn:E2.
    + eexists. reflexivity.
    + apply negb_false_iff, String.eqb_eq in E2. subst s. discriminate E.
Qed.

End Rejections.

(** ** Decode as a whole: what it accepts, what it logs, how it fails *)

Section Parsing.
Context `{L : Lib}.

Lemma visitMeta_spec kvs meta h :
  visitMeta kvs meta h =
    (Ok (foldl (fun m kv => <[kv.1 := kv.2]> m) meta (supported kvs)),
     {| conv := conv h; logged := logged h ++ metaWarnings kvs |}).
Proof.
  revert meta h. induction kvs as [| [k v] rest IH]; intros meta h.
  - cbn. rewrite app_nil_r. by destruct h.
  - destruct v; cbn [visitMeta]; unfold bind, logf; rewrite IH;
      cbn; rewrite <- ?app_assoc; reflexivity.
Qed.

Lemma foldl_insert_lookup {A} (l : list (string * A)) (m : gmap string A) k :
  foldl (fun m kv => <[kv.1 := kv.2]> m) m l !! k
  = match lastWithKey k l with
    | Some a => Some a
    | None => m !! k
    end.
Proof.
  revert m. induction l as [| [k' a] l IH]; intros m; [reflexivity |].
  cbn [foldl]. rewrite IH. unfold lastWithKey.
  destruct (decide (k' = k)) as [-> | Hne].
  - rewrite filter_cons_True by reflexivity. rewrite last_cons.
    destruct (last (filter _ l)) as [[k1 a1] |]; [reflexivity |].
    cbn. by rewrite lookup_insert_eq.
  - rewrite filter_cons_False by (cbn; congruence).
    destruct (last (filter _ l)) as [[k1 a1] |]; [reflexivity |].
    cbn. by rewrite lookup_insert_ne.
Qed.

(** What a successful parse went through. *)
Lemma parsePacked_inv b h pf h1 :
  parsePacked b h = (Ok pf, h1) →
  ∃ kvs rawFrames meta frames,
    ParseBytes b = Ok (VObject kvs)
    ∧ Object_Get kvs "frames" = Some (VArray rawFrames)
    ∧ Object_Get kvs "meta" = Some (VObject meta)
    ∧ decodeFrames b rawFrames = Ok frames
    ∧ pf = {| Meta := Some (foldl (fun m kv => <[kv.1 := kv.2]> m) ∅ (supported meta));
              Frames := Some frames |}
    ∧ h1 = {| conv := conv h; logged := logged h ++ metaWarnings meta |}.
Proof.
  unfold parsePacked, bind, lift, wrap.
  destruct (ParseBytes b) as [v | |] eqn:HP; try discriminate.
  destruct v; cbn [Value_Object Value_Type]; try discriminate.
  destruct (Object_Get kvs "frames") as [vf |] eqn:HF;
    cbn [Value_Array]; try discriminate.
  destruct vf as [| | | | | rawFrames |]; try discriminate.
  destruct (decodeFrames b rawFrames) as [frames | |] eqn:HD; try discriminate.
  destruct (Object_Get kvs "meta") as [vm |] eqn:HM;
    cbn [Value_Object]; try discriminate.
  destruct vm as [| | | | | | meta]; try discriminate.
  rewrite visitMeta_spec. unfold ret. intros [= <- <-].
  by exists kvs, rawFrames, meta, frames.
Qed.

Lemma decodeFrame_error b rawFrame e :
  decodeFrame b rawFrame = Err e → decodeErrorOf b e.
Proof.
  unfold decodeFrame.
  destruct (Value_Uint _) as [tid | le |]; cbn [wrap obind]; try discriminate.
  - destruct (hex_Decode _) as [bs | le |]; cbn [wrap obind]; try discriminate.
    by intros [= <-].
  - by intros [= <-].
Qed.

Lemma decodeFrames_error b rawFrames e :
  decodeFrames b rawFrames = Err e → decodeErrorOf b e.
Proof.
  induction rawFrames as [| r rest IH]; cbn [decodeFrames]; [discriminate |].
  destruct (decodeFrame b r) as [f | e' |] eqn:E; cbn [obind]; try discriminate.
  - destruct (decodeFrames b rest) as [fs | e' |]; cbn [obind]; try discriminate.
    intros [= <-]. by apply IH.
  - intros [= <-]. by apply (decodeFrame_error _ _ _ E).
Qed.

(** The payload is only quoted in errors: frames that are read without
    error under one payload are read alike under another. *)
Lemma decodeFrames_payload b1 b2 rawFrames frames :
  decodeFrames b1 rawFrames = Ok frames → decodeFrames b2 rawFrames = Ok frames.
Proof.
  revert frames. induction rawFrames as [| r rest IH]; intros frames;
    cbn [decodeFrames]; [done |].
  assert (Hf : ∀ f, decodeFrame b1 r = Ok f → decodeFrame b2 r = Ok f).
  { unfold decodeFrame. intros f.
    destruct (Value_Uint _); cbn [wrap obind]; try discriminate.
    destruct (hex_Decode _); cbn [wrap obind]; try discriminate. done. }
  destruct (decodeFrame b1 r) as [f | |]; cbn [obind]; try discriminate.
  rewrite (Hf f eq_refl). cbn [obind].
  destruct (decodeFrames b1 rest) as [fs | |]; cbn [obind]; try discriminate.
  rewrite (IH fs eq_refl). done.
Qed.

Lemma decodeFrames_halts {b pre rawFrame post fs} p :
  decodeFrames b pre = Ok fs →
  decodeFrame b rawFrame = Panic p →
  decodeFrames b (pre ++ rawFrame :: post) = Panic p.
Proof.
  revert fs. induction pre as [| r pre IH]; intros fs Hpre Hbad; cbn [app decodeFrames].
  - by rewrite Hbad.
  - cbn [decodeFrames] in Hpre.
    destruct (decodeFrame b r) as [f | |]; cbn [obind] in *; try discriminate.
    destruct (decodeFrames b pre) as [fs' | |]; cbn [obind] in *; try discriminate.
    by rewrite (IH fs').
Qed.

Lemma hex_Decode_bytes s bs :
  hex_Decode s = Ok bs → Forall (fun x => 0 ≤ x < 256) bs.
Proof.
  revert bs. induction s as [| c | p q rest IH] using string_pair_ind; intros bs.
  - intros [= <-]. constructor.
  - cbn [hex_Decode]. destruct (15 <? fromHexChar c); discriminate.
  - cbn [hex_Decode].
    destruct (15 <? fromHexChar p) eqn:E1; [discriminate |].
    destruct (15 <? fromHexChar q) eqn:E2; [discriminate |].
    destruct (hex_Decode rest) as [bs' | |]; try discriminate.
    intros [= <-]. apply Z.ltb_ge in E1, E2.
    pose proof (fromHexChar_nonneg p). pose proof (fromHexChar_nonneg q).
    constructor; [| by apply IH].
    rewrite lor_shiftl_nibbles by lia. lia.
Qed.

Lemma hex_Decode_no_panic s p : hex_Decode s ≠ Panic p.
Proof.
  induction s as [| c | a q rest IH] using string_pair_ind; cbn [hex_Decode].
  - discriminate.
  - destruct (15 <? fromHexChar c); discriminate.
  - destruct (15 <? fromHexChar a); [discriminate |].
    destruct (15 <? fromHexChar q); [discriminate |].
    destruct (hex_Decode rest); try discriminate. done.
Qed.

Lemma decodeFrame_wellFormed b rawFrame f :
  decodeFrame b rawFrame = Ok f → wellFormedFrame f.
Proof.
  unfold decodeFrame.
  destruct (Value_Uint _) as [tid | |]; cbn [wrap obind]; try discriminate.
  destruct (hex_Decode _) as [bs | |] eqn:E; cbn [wrap obind]; try discriminate.
  intros [= <-]. unfold wellFormedFrame. cbn [ID Data]. rewrite copy_zero.
  split; [| split].
  - unfold uint32. apply Z.mod_pos_bound. lia.
  - rewrite length_app, length_take, length_replicate. unfold MaxDataLength. lia.
  - apply Forall_app. split.
    + apply Forall_take. by apply (hex_Decode_bytes _ _ E).
    + apply Forall_replicate. lia.
Qed.

(** X7.  Every frame a successful parse hands to the dispatch has an ID
    below 2^32 and a payload of exactly 8 bytes, each below 256, whatever the
    payload said. *)
Theorem parsePacked_frames_wellFormed (b : string) (h h1 : Heap) (pf : packedFrames)
    (frames : list Frame) :
  parsePacked b h = (Ok pf, h1) →
  Frames pf = Some frames →
  Forall wellFormedFrame frames.
Proof.
  intros HP HF.
  destruct (parsePacked_inv _ _ _ _ HP) as (kvs & rf & meta & fs & _ & _ & _ & HD & -> & _).
  cbn in HF. injection HF as <-.
  clear HP. revert fs HD. induction rf as [| r rest IH]; intros fs; cbn [decodeFrames].
  - intros [= <-]. constructor.
  - destruct (decodeFrame b r) as [f | |] eqn:E; cbn [obind]; try discriminate.
    destruct (decodeFrames b rest) as [fs' | |]; cbn [obind]; try discriminate.
    intros [= <-]. constructor; [by apply (decodeFrame_wellFormed _ _ _ E) | by apply IH].
Qed.

(** X8.  Decode succeeds exactly on the payloads that read as an object
    whose [frames] member is an array of frames that all pass the loop and
    whose [meta] member is an object. *)
Theorem Decode_accepts_iff (b : string) (h : Heap) :
  isOk (Decode b h).1 = true
  ↔ ∃ rawFrames meta frames,
      batchOf b rawFrames meta ∧ decodeFrames b rawFrames = Ok frames.
Proof.
  split.
  - unfold Decode, bind.
    destruct (parsePacked b h) as [[pf | e | p] h1] eqn:HP; try discriminate.
    intros _.
    destruct (parsePacked_inv _ _ _ _ HP)
      as (kvs & rf & meta & fs & H1 & H2 & H3 & H4 & _).
    exists rf, meta, fs. split; [by exists kvs | done].
  - intros (rf & meta & fs & HB & HD).
    by rewrite (Decode_batch _ _ _ _ h HB HD).
Qed.

(** X9.  A frame element passes the loop exactly when its [id] member reads
    as an unsigned integer and the bytes of its [data] member (none, when the
    member is absent or no string) are an even number of hexadecimal
    digits. *)
Theorem decodeFrame_accepts_iff (b : string) (rawFrame : Value) :
  isOk (decodeFrame b rawFrame) = true
  ↔ isOk (Value_Uint (Value_Get (Some rawFrame) "id")) = true
    ∧ Nat.even (String.length (Value_GetStringBytes (Value_Get (Some rawFrame) "data")))
      && allHex (Value_GetStringBytes (Value_Get (Some rawFrame) "data")) = true.
Proof.
  unfold decodeFrame.
  destruct (Value_Uint _) as [tid | |]; cbn [wrap obind isOk].
  2, 3: split; [discriminate | intros [? _]; discriminate].
  set (s := Value_GetStringBytes _).
  destruct (Nat.even (String.length s) && allHex s) eqn:E.
  - apply andb_prop in E as [E1 E2].
    destruct (hex_Decode_ok s E1 E2) as (bs & -> & _). cbn. tauto.
  - apply andb_false_iff in E. destruct (hex_Decode_err s E) as [e ->].
    cbn. split; [discriminate | intros [_ ?]; discriminate].
Qed.

(** X10.  When Decode returns an error, the error is one of the six built
    around the payload (invalid JSON, not an object, frames array, frame id,
    hex data, meta object) and quotes that payload; the "no frames" and the
    "frame data should be string" errors are never returned; and nothing has
    been written to the log. *)
Theorem Decode_error_kinds (b : string) (h : Heap) (e : error) :
  (Decode b h).1 = Err e →
  decodeErrorOf b e ∧ (Decode b h).2 = h.
Proof.
  unfold Decode, bind.
  destruct (parsePacked b h) as [[pf | e' | p] h1] eqn:HP.
  - rewrite dispatch_spec. discriminate.
  - cbn. intros [= ->]. revert HP.
    unfold parsePacked, bind, lift, wrap.
    destruct (ParseBytes b) as [v | |]; [| by intros [= <- <-] | discriminate].
    destruct (Value_Object (Some v)) as [obj | |]; [| by intros [= <- <-] | discriminate].
    destruct (Value_Array _) as [rf | |]; [| by intros [= <- <-] | discriminate].
    destruct (decodeFrames b rf) as [fs | e1 |] eqn:HD; [| | discriminate].
    + destruct (Value_Object _) as [m | |]; [| by intros [= <- <-] | discriminate].
      rewrite visitMeta_spec. discriminate.
    + intros [= <- <-]. split; [| done]. by apply (decodeFrames_error _ _ _ HD).
  - discriminate.
Qed.

(** X11.  On a well-shaped batch Decode appends to the log one warning for
    every [meta] member that is neither number, string nor boolean, in member
    order, then one error line for every frame whose ID has no table entry,
    in frame order, and nothing else. *)
Theorem Decode_log (b : string) (h : Heap) (rawFrames : list Value)
    (meta : list (string * Value)) (frames : list Frame) :
  batchOf b rawFrames meta →
  decodeFrames b rawFrames = Ok frames →
  logged (Decode b h).2
  = (logged h ++ metaWarnings meta ++ unknownLog (messages (conv h)) frames)%list.
Proof.
  intros (kvs & HP & HF & HM) HD. unfold Decode, bind.
  rewrite (parsePacked_frames _ _ _ _ HP HF), HD, HM. cbn [wrap Value_Object].
  unfold bind. rewrite visitMeta_spec. unfold ret. cbn [Frames default].
  rewrite dispatch_spec. cbn. by rewrite app_assoc.
Qed.

(** X12.  The [meta] member has no part in the result: two well-shaped
    batches with the same frames decode to the same signals on the same
    table, whatever their meta objects hold. *)
Theorem Decode_ignores_meta (b1 b2 : string) (h1 h2 : Heap) (rawFrames : list Value)
    (meta1 meta2 : list (string * Value)) (frames : list Frame) :
  batchOf b1 rawFrames meta1 →
  batchOf b2 rawFrames meta2 →
  decodeFrames b1 rawFrames = Ok frames →
  conv h1 = conv h2 →
  (Decode b1 h1).1 = (Decode b2 h2).1.
Proof.
  intros HB1 HB2 HD Hc.
  rewrite (Decode_batch _ _ _ _ h1 HB1 HD).
  rewrite (Decode_batch _ _ _ _ h2 HB2 (decodeFrames_payload _ b2 _ _ HD)).
  by rewrite Hc.
Qed.

(** X13.  The meta map a successful parse builds holds, under every key,
    what the last member with that key and a number, string or boolean value
    gives, and nothing under the keys without such a member. *)
Theorem parsePacked_meta (b : string) (h h1 : Heap) (pf : packedFrames)
    (kvs : list (string * Value)) (meta : list (string * Value)) :
  parsePacked b h = (Ok pf, h1) →
  ParseBytes b = Ok (VObject kvs) →
  Object_Get kvs "meta" = Some (VObject meta) →
  ∃ m, Meta pf = Some m ∧ ∀ k, m !! k = lastWithKey k (supported meta).
Proof.
  intros HP HB HM.
  destruct (parsePacked_inv _ _ _ _ HP)
    as (kvs' & rf & meta' & fs & H1 & _ & H3 & _ & -> & _).
  rewrite HB in H1. injection H1 as <-. rewrite HM in H3. injection H3 as <-.
  eexists. split; [reflexivity |]. intros k.
  rewrite foldl_insert_lookup, lookup_empty. by destruct (lastWithKey _ _).
Qed.

(** X14.  A frame element that is no object, or has no [id] member, makes
    Decode panic with a nil dereference once the frames before it are read
    without error: no error is returned and nothing is logged. *)
Theorem Decode_missing_id_panics (b : string) (h : Heap) (kvs : list (string * Value))
    (pre post : list Value) (fs : list Frame) (rawFrame : Value) :
  ParseBytes b = Ok (VObject kvs) →
  Object_Get kvs "frames" = Some (VArray (pre ++ rawFrame :: post)) →
  decodeFrames b pre = Ok fs →
  Value_Type rawFrame ≠ TypeObject ∨ Value_Get (Some rawFrame) "id" = None →
  Decode b h = (Panic NilDereference, h).
Proof.
  intros HP HF Hpre Hbad.
  assert (Hid : Value_Get (Some rawFrame) "id" = None).
  { destruct Hbad as [Hty | Hid]; [| exact Hid].
    destruct rawFrame; try reflexivity. by destruct Hty. }
  assert (HD : decodeFrame b rawFrame = Panic NilDereference).
  { unfold decodeFrame. by rewrite Hid. }
  unfold Decode, bind.
  rewrite (parsePacked_frames _ _ _ _ HP HF).
  by rewrite (decodeFrames_halts (post := post) _ Hpre HD).
Qed.

End Parsing.

(** ** Building the table: sources, failures, keys *)

Section Building.
Context `{L : Lib} `{F : OS}.

Lemma firstWithID_is_Some id (db : list Message) :
  is_Some (firstWithID id db) ↔ id ∈ Message_ID <$> db.
Proof.
  induction db as [| m db IH].
  - split; [intros [? H]; discriminate H | intros H; by apply elem_of_nil in H].
  - rewrite firstWithID_cons. cbn [fmap list_fmap]. rewrite elem_of_cons.
    destruct (decide (Message_ID m = id)) as [<- | Hne].
    + split; [by left | eauto].
    + rewrite IH. split; [by right | intros [-> | ?]; [done | assumption]].
Qed.

Lemma firstWithID_ID id (db : list Message) m :
  firstWithID id db = Some m → Message_ID m = id.
Proof.
  induction db as [| m' db IH]; [discriminate |].
  rewrite firstWithID_cons. destruct (decide _) as [<- | ?]; [by intros [= <-] | exact IH].
Qed.

Lemma addMessages_keyed mm ms : keyed mm → keyed (addMessages mm ms).
Proof.
  intros Hk id m. rewrite addMessages_lookup.
  destruct (mm !! id) as [m0 |] eqn:E.
  - intros [= <-]. by apply Hk.
  - apply firstWithID_ID.
Qed.

Lemma loadFiles_keyed mm mm' max files :
  loadFiles mm max files = Ok mm' → keyed mm → keyed mm'.
Proof.
  revert mm. induction files as [| file rest IH]; intros mm; cbn [loadFiles].
  - by intros [= <-].
  - destruct (os_Read file max) as [content | |]; cbn [wrap obind]; try discriminate.
    unfold addMessageDb.
    destruct (Compile file content) as [db | |]; cbn [wrap obind]; try discriminate.
    intros H Hk. apply (IH _ H). by apply addMessages_keyed.
Qed.

Lemma loadFiles_stops mm max pre dbs file post e :
  Forall2 (compiles max) pre dbs →
  failsWith max file e →
  loadFiles mm max (pre ++ file :: post) = Err (LibErr e).
Proof.
  intros H Hbad. revert mm.
  induction H as [| f db pre dbs (content & HR & HC) _ IH]; intros mm.
  - cbn [app loadFiles]. destruct Hbad as [HR | (content & HR & HC)].
    + by rewrite HR.
    + rewrite HR. cbn [wrap obind]. unfold addMessageDb. by rewrite HC.
  - cbn [app loadFiles]. rewrite HR. cbn [wrap obind].
    unfold addMessageDb. rewrite HC. cbn [wrap obind]. apply IH.
Qed.

Lemma walkFn_ok entries files max :
  Forall (fun e => is_Some e.2) (selected entries) →
  walkFn entries files max
  = Ok ((files ++ (selected entries).*1)%list,
        largest max (reportedSizes (selected entries))).
Proof.
  revert files max. induction entries as [| [path info] rest IH]; intros files max.
  - intros _. cbn. by rewrite app_nil_r.
  - cbn [walkFn]. unfold selected.
    destruct (isDbc (filepath_Ext path)) eqn:E.
    + rewrite filter_cons_True by exact E. intros H.
      apply Forall_cons in H as [[size Hi] H]. cbn in Hi. subst info.
      rewrite (IH _ _ H). cbn [fmap list_fmap fst]. by rewrite <- app_assoc.
    + rewrite filter_cons_False by (cbn [fst]; rewrite E; discriminate). apply IH.
Qed.

Lemma walkFn_panic entries files max :
  Exists (fun e => e.2 = None) (selected entries) →
  walkFn entries files max = Panic NilDereference.
Proof.
  revert files max. induction entries as [| [path info] rest IH]; intros files max.
  - intros H. by apply Exists_nil in H.
  - cbn [walkFn]. unfold selected.
    destruct (isDbc (filepath_Ext path)) eqn:E.
    + rewrite filter_cons_True by exact E. intros H.
      destruct info as [size |]; [| reflexivity].
      apply Exists_cons in H as [H | H]; [discriminate H | by apply IH].
    + rewrite filter_cons_False by (cbn [fst]; rewrite E; discriminate). apply IH.
Qed.

Lemma largest_bounds max sizes :
  max ≤ largest max sizes ∧ Forall (fun size => size ≤ largest max sizes) sizes.
Proof.
  revert max. induction sizes as [| size rest IH]; intros max.
  - split; [reflexivity | constructor].
  - cbn [largest foldl]. fold (largest (if max <? size then size else max) rest).
    destruct (IH (if max <? size then size else max)) as [H1 H2].
    destruct (max <? size) eqn:E;
      [apply Z.ltb_lt in E | apply Z.ltb_ge in E];
      (split; [lia | constructor; [lia | exact H2]]).
Qed.

Lemma toLower_plain c :
  Ascii.eqb (toLower c) "." = false → Ascii.eqb (toLower c) "/" = false →
  Ascii.eqb c "." = false ∧ Ascii.eqb c "/" = false.
Proof.
  destruct c as [[] [] [] [] [] [] [] []]; vm_compute; auto.
Qed.

Lemma toLower_dot c : toLower c = "."%char → c = "."%char.
Proof.
  destruct c as [[] [] [] [] [] [] [] []]; vm_compute; congruence.
Qed.

Lemma Ext_from_suffix p c1 c2 c3 cur :
  Ascii.eqb c1 "." = false → Ascii.eqb c1 "/" = false →
  Ascii.eqb c2 "." = false → Ascii.eqb c2 "/" = false →
  Ascii.eqb c3 "." = false → Ascii.eqb c3 "/" = false →
  Ext_from (p ++ String "." (String c1 (String c2 (String c3 ""))))%string cur
  = String "." (String c1 (String c2 (String c3 ""))).
Proof.
  intros H1 H1' H2 H2' H3 H3'. revert cur.
  induction p as [| c p IH]; intros cur.
  - change (Ext_from (String c1 (String c2 (String c3 "")))
              (String "." (String c1 (String c2 (String c3 ""))))
            = String "." (String c1 (String c2 (String c3 "")))).
    cbn [Ext_from]. by rewrite H1, H1', H2, H2', H3, H3'.
  - change (Ext_from (String c (p ++ String "." (String c1 (String c2 (String c3 "")))))
              cur
            = String "." (String c1 (String c2 (String c3 "")))).
    cbn [Ext_from].
    destruct (Ascii.eqb c "/"); [apply IH |].
    destruct (Ascii.eqb c "."); apply IH.
Qed.

(** X15.  Merging a compiled source never replaces or removes an entry the
    table holds, and adds entries exactly for the IDs the source defines:
    afterwards an ID has an entry when it had one before or the source has a
    message with that ID. *)
Theorem addMessageDb_extends (mm : gmap Z Message) (dbcPath dbcContent : string)
    (db : list Message) :
  Compile dbcPath dbcContent = Ok db →
  ∃ mm', addMessageDb mm dbcPath dbcContent = Ok mm'
    ∧ mm ⊆ mm'
    ∧ ∀ id, is_Some (mm' !! id) ↔ is_Some (mm !! id) ∨ id ∈ Message_ID <$> db.
Proof.
  intros HC. exists (addMessages mm db). split; [| split].
  - unfold addMessageDb. by rewrite HC.
  - apply map_subseteq_spec. intros id m Hm. by rewrite addMessages_lookup, Hm.
  - intros id. rewrite addMessages_lookup.
    destruct (mm !! id) as [m |] eqn:E.
    + split; eauto.
    + rewrite firstWithID_is_Some. split; [by right |].
      intros [[? H] | H]; [discriminate H | exact H].
Qed.

(** X16.  Given the path of a single file that reads and compiles,
    NewConverter builds the table of that one source: every ID it defines is
    present, under the first message of the source with that ID, and no other
    ID is. *)
Theorem NewConverter_single_file (dbcPath dbc : string) (db : list Message) :
  os_Stat dbcPath = Ok false →
  os_ReadFile dbcPath = Ok dbc →
  Compile dbcPath dbc = Ok db →
  ∃ c, NewConverter dbcPath = Ok c
    ∧ (∀ id, messages c !! id = firstWithID id db)
    ∧ (∀ id, is_Some (messages c !! id) ↔ id ∈ Message_ID <$> db).
Proof.
  intros HS HR HC. exists {| messages := addMessages ∅ db |}.
  assert (Hl : ∀ id, addMessages (∅ : gmap Z Message) db !! id = firstWithID id db).
  { intros id. by rewrite addMessages_lookup, lookup_empty. }
  split; [| split].
  - unfold NewConverter. rewrite HS. cbn [wrap obind]. rewrite HR. cbn [wrap obind].
    unfold addMessageDb. by rewrite HC.
  - exact Hl.
  - intros id. cbn [messages]. rewrite Hl. apply firstWithID_is_Some.
Qed.

(** X17.  Under a directory whose walk returns (it has a [FileInfo] for
    every DBC entry), the first kept source that cannot be read or does not
    compile ends the build with that source's error, returned as it came: no
    converter is returned, whatever the sources before it added. *)
Theorem NewConverter_aborts (dbcPath : string) (pre post : list string) (file : string)
    (max : Z) (dbs : list (list Message)) (e : LibError) :
  os_Stat dbcPath = Ok true →
  walkFn (filepath_Walk dbcPath) [] 0 = Ok ((pre ++ file :: post)%list, max) →
  Forall2 (compiles max) pre dbs →
  failsWith max file e →
  NewConverter dbcPath = Err (LibErr e).
Proof.
  intros HS HW Hpre Hbad. unfold NewConverter.
  rewrite HS. cbn [wrap obind]. rewrite HW. cbn [obind].
  by rewrite (loadFiles_stops _ _ _ _ _ _ _ Hpre Hbad).
Qed.

(** X18.  In every table NewConverter returns, an entry sits under the ID
    of its own message; so each frame the dispatch resolves is decoded with a
    message whose ID is the frame's ID. *)
Theorem NewConverter_keyed (dbcPath : string) (c : Converter) (frames : list Frame) :
  NewConverter dbcPath = Ok c →
  keyed (messages c)
  ∧ Forall (fun df => Message_ID df.1 = ID df.2) (known (messages c) frames).
Proof.
  intros HN.
  assert (Hk : keyed (messages c)).
  { revert HN. unfold NewConverter.
    destruct (os_Stat dbcPath) as [isDir | |]; cbn [wrap obind]; try discriminate.
    assert (H0 : keyed (∅ : gmap Z Message)).
    { intros id m H. by rewrite lookup_empty in H. }
    destruct isDir.
    - destruct (walkFn _ _ _) as [[files max] | |]; cbn [obind]; try discriminate.
      destruct (loadFiles ∅ max files) as [mm | |] eqn:E; cbn [obind]; try discriminate.
      intros [= <-]. by apply (loadFiles_keyed _ _ _ _ E).
    - destruct (os_ReadFile dbcPath) as [dbc | |]; cbn [wrap obind]; try discriminate.
      unfold addMessageDb.
      destruct (Compile dbcPath dbc) as [db | |]; cbn [wrap obind]; try discriminate.
      intros [= <-]. by apply addMessages_keyed. }
  split; [exact Hk |].
  eapply Forall_impl; [apply known_entries |].
  intros [d f] Hd. cbn in *. by apply Hk.
Qed.

(** X19.  When the walk has a [FileInfo] for every entry whose extension
    is [.dbc] in any letter case, it keeps exactly those entries, in the
    order visited, and sizes the shared read buffer to the largest size
    reported for them (to 0 when there is none), so no reported size exceeds
    the buffer; when an entry with that extension comes with a nil
    [FileInfo], the walk panics. *)
Theorem walkFn_selects (entries : list (string * option Z)) :
  (Forall (fun e => is_Some e.2) (selected entries) →
     walkFn entries [] 0
     = Ok ((selected entries).*1, largest 0 (reportedSizes (selected entries)))
     ∧ 0 ≤ largest 0 (reportedSizes (selected entries))
     ∧ Forall (fun size => size ≤ largest 0 (reportedSizes (selected entries)))
         (reportedSizes (selected entries)))
  ∧ (Exists (fun e => e.2 = None) (selected entries) →
     walkFn entries [] 0 = Panic NilDereference).
Proof.
  split.
  - intros H. split; [by apply walkFn_ok | apply largest_bounds].
  - apply walkFn_panic.
Qed.

(** X20.  A path that ends in [.dbc], the letters in either case, is taken
    for a DBC file whatever comes before the extension. *)
Theorem dbc_extension_any_case (p e : string) :
  lower e = ".dbc" →
  isDbc (filepath_Ext (p ++ e)%string) = true.
Proof.
  intros He.
  destruct e as [| c0 [| c1 [| c2 [| c3 [| c4 e]]]]]; try discriminate He.
  cbn [lower] in He. injection He as H0 H1 H2 H3.
  apply toLower_dot in H0. subst c0.
  unfold filepath_Ext. rewrite Ext_from_suffix.
  - unfold isDbc. cbn [lower]. rewrite H1, H2, H3. reflexivity.
  - apply toLower_plain; by rewrite H1.
  - apply toLower_plain; by rewrite H1.
  - apply toLower_plain; by rewrite H2.
  - apply toLower_plain; by rewrite H2.
  - apply toLower_plain; by rewrite H3.
  - apply toLower_plain; by rewrite H3.
Qed.

End Building.

(** ** The earlier revision *)

Section LegacyDecode.
Context `{L : Lib}.

(** X21.  The earlier Decode succeeds exactly when encoding/json reads the
    payload and leaves a frames slice that is not nil; it then returns the
    signals of the frames with a table entry, like the current Decode. *)
Theorem Legacy_Decode_accepts_iff (b : string) (h : Heap) :
  (isOk (Legacy.Decode b h).1 = true
   ↔ ∃ p frames, json_Unmarshal b = Ok p ∧ Frames p = Some frames)
  ∧ ∀ p frames, json_Unmarshal b = Ok p → Frames p = Some frames →
      (Legacy.Decode b h).1 = Ok (extract ∅ (known (messages (conv h)) frames)).
Proof.
  unfold Legacy.Decode, bind, lift. split.
  - destruct (json_Unmarshal b) as [p | |]; cbn [wrap].
    + destruct (Frames p) as [frames |] eqn:E.
      * rewrite dispatch_spec. split; [eauto | reflexivity].
      * split; [discriminate | intros (p' & fs & [= <-] & H); congruence].
    + split; [discriminate | intros (? & ? & H & _); discriminate H].
    + split; [discriminate | intros (? & ? & H & _); discriminate H].
  - intros p frames -> HF. cbn [wrap]. rewrite HF. by rewrite dispatch_spec.
Qed.

(** X22.  Where the two revisions read the same frames out of a payload,
    they return the same signals and log the same unknown IDs. *)
Theorem Legacy_Decode_agrees (b : string) (h h1 : Heap) (p pf : packedFrames)
    (frames : list Frame) :
  json_Unmarshal b = Ok p → Frames p = Some frames →
  parsePacked b h = (Ok pf, h1) → Frames pf = Some frames →
  (Legacy.Decode b h).1 = (Decode b h).1
  ∧ ∃ warnings,
      logged (Decode b h).2
      = (logged h ++ warnings ++ unknownLog (messages (conv h)) frames)%list
      ∧ logged (Legacy.Decode b h).2
        = (logged h ++ unknownLog (messages (conv h)) frames)%list.
Proof.
  intros HU HF HP HF'.
  destruct (parsePacked_inv _ _ _ _ HP)
    as (kvs & rf & meta & fs & _ & _ & _ & _ & -> & ->).
  cbn in HF'. injection HF' as ->.
  unfold Legacy.Decode, Decode, bind, lift. rewrite HU, HP. cbn [wrap].
  rewrite HF. cbn [Frames default]. rewrite !dispatch_spec. cbn.
  split; [reflexivity |]. exists (metaWarnings meta).
  split; [by rewrite app_assoc | reflexivity].
Qed.

End LegacyDecode.

(** ** No hidden state *)

Section Steady.
Context `{L : Lib} {I : Impure L}.













Lemma view_lookup t o lg id :
  messages (conv (view {| Mem.c_messages := t; Mem.objects := o; Mem.log := lg |})) !! id
  = t !! id ≫= (fun p => o !! p).
Proof. cbn. apply lookup_omap. Qed.





End Steady.

(** ** The statements on concrete payloads *)

Section Concrete.
Import Demo.

Lemma Encode_returns_no_error :
  ¬ ∃ e : error, (Encode (L := lib64) (VString "x") heap0).1 = Err e.
Proof. intros [e He]. discriminate He. Qed.

Lemma Decode_skips_unknown_witness :
  (Decode (L := lib64) b_two heap0).1 = Ok (extract ∅ [(m100, f100)])
  ∧ (Decode (L := lib64) b_two heap0).1 = Ok {[ "first" := 10; "second" := 11 ]}.
Proof.
  destruct (Decode_skips_unknown (L := lib64) b_two heap0 heap0 pf_two)
    as (frames & HF & HD & _).
  - reflexivity.
  - injection HF as <-. split; rewrite HD; reflexivity.
Defined.

Lemma Decode_without_meta_panics_witness :
  Decode (L := lib64) b_nometa heap0 = (Panic NilDereference, heap0).
Proof.
  eapply (Decode_without_meta_panics (L := lib64)); reflexivity.
Defined.

Lemma Decode_no_frames_witness :
  Decode (L := lib64) b_noframes heap0 = (Panic NilDereference, heap0)
  ∧ (Decode (L := lib64) b_empty heap0).1 = Ok (∅ : gmap string Z).
Proof.
  split.
  - eapply (Decode_no_frames (L := lib64) b_noframes); reflexivity.
  - eapply (Decode_no_frames (L := lib64) b_empty); reflexivity.
Defined.

Lemma Decode_accepts_missing_data_witness :
  decodeFrame (L := lib64) b_nodata (VObject [("id", VNumber "100")]) = Ok f100_zero
  ∧ (Decode (L := lib64) b_nodata heap0).1 = Ok {[ "first" := 0; "second" := 0 ]}.
Proof.
  destruct (Decode_accepts_missing_data (L := lib64) b_nodata heap0
              (VObject [("id", VNumber "100")]) [] 100) as [HF HD].
  - eexists. repeat split; reflexivity.
  - reflexivity.
  - intros s. discriminate.
  - split; [exact HF |]. rewrite HD. reflexivity.
Defined.

Lemma Decode_wraps_wide_id_witness :
  (Decode (L := lib64) b_wide heap0).1 = Ok {[ "first" := 10; "second" := 11 ]}.
Proof.
  destruct (Decode_wraps_wide_id (L := lib64) b_wide heap0
              (VObject [("id", VNumber "4294967396"); ("data", VString "0a0b")])
              [] "4294967396" [10; 11])
    as (f & HF & _ & _ & HD).
  - reflexivity.
  - eexists. repeat split; reflexivity.
  - reflexivity.
  - discriminate.
  - reflexivity.
  - split; [discriminate | reflexivity].
  - reflexivity.
  - rewrite HD. injection HF as <-. reflexivity.
Defined.

Lemma decodeFrame_payload_witness :
  ∃ f, decodeFrame (L := lib64) b_long rawFrame_long = Ok f
       ∧ length (Data f) = 8%nat
       ∧ Data f !! 0%nat = Some 1
       ∧ Data f !! 7%nat = Some 8.
Proof.
  destruct (decodeFrame_payload (L := lib64) b_long rawFrame_long 100
              "0102030405060708090A")
    as (bs & f & Hbs & _ & _ & HF & _ & Hlen & Hlow & _).
  - reflexivity.
  - reflexivity.
  - reflexivity.
  - reflexivity.
  - vm_compute in Hbs. injection Hbs as <-.
    exists f. split; [exact HF |]. split; [exact Hlen |].
    split; (rewrite Hlow; [reflexivity | lia | simpl; lia]).
Defined.

Lemma first_source_wins_witness :
  ∃ c, NewConverter (L := lib64) (F := os) "dbc" = Ok c
       ∧ messages c !! 100 = Some (m_a 100)
       ∧ messages c !! 101 = Some (m_a 101)
       ∧ messages c !! 102 = Some (m_b 102).
Proof.
  destruct (first_source_wins (L := lib64) (F := os) "dbc"
              ["dbc/a.dbc"; "dbc/b.DBC"] 2
              [[m_a 100; m_a 101]; [m_b 101; m_b 102]])
    as (c & HN & _ & Hfirst).
  - reflexivity.
  - reflexivity.
  - repeat constructor; eexists; split; reflexivity.
  - exists c. split; [exact HN |]. repeat split.
    + apply (Hfirst 100 0%nat [m_a 100; m_a 101]); [reflexivity | reflexivity |].
      intros j db' Hj. lia.
    + apply (Hfirst 101 0%nat [m_a 100; m_a 101]); [reflexivity | reflexivity |].
      intros j db' Hj. lia.
    + apply (Hfirst 102 1%nat [m_b 101; m_b 102]); [reflexivity | reflexivity |].
      intros [| j] db' Hj Hdb; [| lia].
      injection Hdb as <-. reflexivity.
Defined.

Lemma Decode_revisions_differ_witness :
  (Legacy.Decode (L := lib64) b_onlyframes heap0).1 = Ok (∅ : gmap string Z)
  ∧ (Decode (L := lib64) b_onlyframes heap0).1 = Panic NilDereference.
Proof.
  apply (Decode_revisions_differ (L := lib64) b_onlyframes heap0); reflexivity.
Defined.

Lemma Decode_rejects_bad_meta_witness :
  ∃ e, Decode (L := lib64) b_badmeta heap0 = (Err (ShouldHaveMetaObject b_badmeta e), heap0).
Proof.
  eexists.
  eapply (Decode_rejects_bad_meta (L := lib64)); try reflexivity. discriminate.
Defined.

Lemma Decode_rejects_non_array_frames_witness :
  ∃ e, Decode (L := lib64) b_notarray heap0
       = (Err (ShouldHaveFramesArray b_notarray e), heap0).
Proof.
  eexists.
  eapply (Decode_rejects_non_array_frames (L := lib64)); try reflexivity. discriminate.
Defined.

Lemma Decode_rejects_bad_hex_witness :
  ∃ e, Decode (L := lib64) b_odd heap0 = (Err (FrameDataShouldBeHex b_odd e), heap0).
Proof.
  eapply (Decode_rejects_bad_hex (L := lib64) b_odd heap0 _
            [VObject [("id", VNumber "100"); ("data", VString "0a0b")]] []
            [f100] (VObject [("id", VNumber "100"); ("data", VString "0a0")]) 100 "0a0");
    try reflexivity.
  left. reflexivity.
Defined.

Lemma decodeFrame_id_exact_witness :
  ∃ f, decodeFrame (L := lib64) b_long rawFrame_long = Ok f ∧ ID f = 100.
Proof.
  eapply (decodeFrame_id_exact (L := lib64) b_long rawFrame_long "100");
    try reflexivity.
  - right. reflexivity.
  - discriminate.
  - split; reflexivity.
Defined.

Lemma decodeFrame_rejects_non_number_id_witness :
  ∃ e, decodeFrame (L := lib64) b_long (VObject [("id", VString "100")])
       = Err (FrameIdShouldBeUint b_long e).
Proof.
  eexists.
  eapply (decodeFrame_rejects_non_number_id (L := lib64)); [reflexivity | discriminate].
Defined.

Lemma decodeFrame_rejects_wide_id_32_witness :
  ∃ e, decodeFrame (L := lib32) b_wide
         (VObject [("id", VNumber "4294967396"); ("data", VString "0a0b")])
       = Err (FrameIdShouldBeUint b_wide e).
Proof.
  eapply (decodeFrame_rejects_wide_id_32 (L := lib32) b_wide _ "4294967396");
    try reflexivity.
  - discriminate.
  - discriminate.
Defined.

End Concrete.

(** ** Order of frames, order of sources *)

Section Orders.
Context `{L : Lib} `{F : OS}.

Lemma decodeFrames_Forall2 b rawFrames frames :
  decodeFrames b rawFrames = Ok frames →
  Forall2 (fun r f => decodeFrame b r = Ok f) rawFrames frames.
Proof.
  revert frames. induction rawFrames as [| r rest IH]; intros frames; cbn [decodeFrames].
  - intros [= <-]. constructor.
  - destruct (decodeFrame b r) as [f | |] eqn:E; cbn [obind]; try discriminate.
    destruct (decodeFrames b rest) as [fs | |]; cbn [obind]; try discriminate.
    intros [= <-]. constructor; [exact E | by apply IH].
Qed.

(** X23.  A successful parse gives one frame for every element of the
    [frames] array, in the order of the array: the [i]-th frame is what the
    loop body makes of the [i]-th element. *)
Theorem parsePacked_frame_order (b : string) (h h1 : Heap) (pf : packedFrames)
    (kvs : list (string * Value)) (rawFrames : list Value) :
  parsePacked b h = (Ok pf, h1) →
  ParseBytes b = Ok (VObject kvs) →
  Object_Get kvs "frames" = Some (VArray rawFrames) →
  ∃ frames, Frames pf = Some frames
    ∧ length frames = length rawFrames
    ∧ ∀ i r, rawFrames !! i = Some r →
        ∃ f, frames !! i = Some f ∧ decodeFrame b r = Ok f.
Proof.
  intros HP HB HF.
  destruct (parsePacked_inv _ _ _ _ HP)
    as (kvs' & rf & meta & fs & H1 & H2 & _ & HD & -> & _).
  rewrite HB in H1. injection H1 as <-. rewrite HF in H2. injection H2 as <-.
  exists fs. split; [reflexivity |].
  pose proof (decodeFrames_Forall2 _ _ _ HD) as H2.
  split; [symmetry; by apply (Forall2_length _ _ _ H2) |].
  intros i r Hr.
  destruct (Forall2_lookup_l _ _ _ _ _ H2 Hr) as (f & Hf & Hd). by exists f.
Qed.


Lemma disjoint_swap (db1 db2 : list Message) :
  (∀ id, ¬ (id ∈ Message_ID <$> db1 ∧ id ∈ Message_ID <$> db2)) →
  ∀ id, ¬ (id ∈ Message_ID <$> db2 ∧ id ∈ Message_ID <$> db1).
Proof. intros H id [H1 H2]. by apply (H id). Qed.

Lemma disjointSources_cons db dbs :
  disjointSources (db :: dbs)
  ↔ Forall (fun db' => ∀ id, ¬ (id ∈ Message_ID <$> db ∧ id ∈ Message_ID <$> db')) dbs
    ∧ disjointSources dbs.
Proof.
  unfold disjointSources. split.
  - intros H. inversion H as [| ? ? H1 H2]; subst. by split.
  - intros [H1 H2]. by constructor.
Qed.

Lemma disjointSources_perm dbs dbs' :
  dbs ≡ₚ dbs' → disjointSources dbs → disjointSources dbs'.
Proof.
  induction 1 as [| db l l' Hp IH | x y l | l1 l2 l3 _ IH1 _ IH2].
  - done.
  - rewrite !disjointSources_cons. intros [H1 H2]. split; [by rewrite <- Hp | by apply IH].
  - rewrite !disjointSources_cons. intros (Hy & Hx & Hl).
    apply Forall_cons in Hy as [Hyx Hy].
    split; [| by split].
    apply Forall_cons. split; [by apply disjoint_swap | exact Hx].
  - intros H. by apply IH2, IH1.
Qed.

Lemma firstWithID_concat_perm dbs dbs' id :
  dbs ≡ₚ dbs' → disjointSources dbs →
  firstWithID id (concat dbs) = firstWithID id (concat dbs').
Proof.
  induction 1 as [| db l l' Hp IH | x y l | l1 l2 l3 Hp1 IH1 Hp2 IH2].
  - done.
  - rewrite disjointSources_cons. intros [_ H]. cbn [concat].
    by rewrite !firstWithID_app, IH.
  - rewrite !disjointSources_cons. intros (Hy & _ & _).
    apply Forall_cons in Hy as [Hyx _].
    cbn [concat]. rewrite !firstWithID_app.
    destruct (firstWithID id x) as [mx |] eqn:Ex, (firstWithID id y) as [my |] eqn:Ey;
      try reflexivity.
    exfalso. apply (Hyx id). split; apply firstWithID_is_Some; eauto.
  - intros H. rewrite IH1 by exact H. apply IH2. by apply (disjointSources_perm _ _ Hp1).
Qed.

(** X25.  When no ID is defined by two different sources, the table does
    not depend on the order in which the walk finds the sources: two orders
    of the same sources load to the same table. *)
Theorem loadFiles_order_irrelevant (max max' : Z) (files files' : list string)
    (dbs dbs' : list (list Message)) :
  Forall2 (compiles max) files dbs →
  Forall2 (compiles max') files' dbs' →
  dbs ≡ₚ dbs' →
  disjointSources dbs →
  ∃ mm, loadFiles ∅ max files = Ok mm ∧ loadFiles ∅ max' files' = Ok mm.
Proof.
  intros H1 H2 Hp Hd. exists (addMessages ∅ (concat dbs)).
  rewrite (loadFiles_ok _ _ _ _ H1), (loadFiles_ok _ _ _ _ H2).
  split; [reflexivity |]. f_equal. apply map_eq. intros id.
  rewrite !addMessages_lookup, lookup_empty.
  symmetry. by apply firstWithID_concat_perm.
Qed.

Lemma fromHexChar_lower c : fromHexChar (toLower c) = fromHexChar c.
Proof.
  destruct c as [[] [] [] [] [] [] [] []]; vm_compute; reflexivity.
Qed.

Lemma hex_Decode_lower s bs :
  hex_Decode s = Ok bs → hex_Decode (lower s) = Ok bs.
Proof.
  revert bs. induction s as [| c | p q rest IH] using string_pair_ind; intros bs.
  - done.
  - cbn [hex_Decode]. destruct (15 <? fromHexChar c); discriminate.
  - cbn [lower hex_Decode]. rewrite !fromHexChar_lower.
    destruct (15 <? fromHexChar p); [discriminate |].
    destruct (15 <? fromHexChar q); [discriminate |].
    destruct (hex_Decode rest) as [bs' | |]; try discriminate.
    intros [= <-]. by rewrite (IH bs').
Qed.

(** X26.  The hexadecimal digits of [data] are read without regard to
    letter case: when a frame element is accepted, an element with the same
    id whose data string has the capitals written small gives the same
    frame. *)
Theorem decodeFrame_hex_case (b : string) (rawFrame rawFrame' : Value)
    (s : string) (f : Frame) :
  Value_Get (Some rawFrame') "id" = Value_Get (Some rawFrame) "id" →
  Value_Get (Some rawFrame) "data" = Some (VString s) →
  Value_Get (Some rawFrame') "data" = Some (VString (lower s)) →
  decodeFrame b rawFrame = Ok f →
  decodeFrame b rawFrame' = Ok f.
Proof.
  intros Hid Hs Hs'. unfold decodeFrame. rewrite Hid, Hs, Hs'.
  cbn [Value_GetStringBytes].
  destruct (Value_Uint _) as [n | |]; cbn [wrap obind]; try discriminate.
  destruct (hex_Decode s) as [bs | |] eqn:E; cbn [wrap obind]; try discriminate.
  intros [= <-]. by rewrite (hex_Decode_lower _ _ E).
Qed.

End Orders.

(** ** Two calls on the same memory *)

Section ConcreteMemory.
Import Demo.


(** With a [DecodeToMap] that writes to its message the second call does
    not repeat the first: the hypothesis on the library is needed. *)
Lemma Decode_differs_when_DecodeToMap_writes :
  (Mem.Decode (I := writing64) b_two (Mem.Decode (I := writing64) b_two mem0).2).1
  ≠ (Mem.Decode (I := writing64) b_two mem0).1.
Proof.
  intros H.
  pose proof (f_equal (fun r : outcome error (gmap string Z) =>
                         match r with
                         | Ok m => m !! "again"
                         | _ => None
                         end) H) as H'.
  vm_compute in H'. discriminate H'.
Qed.

End ConcreteMemory.

(** ** Further statements on concrete payloads and sources *)

Section MoreConcrete.
Import Demo.

Lemma parsePacked_frames_wellFormed_witness :
  Forall wellFormedFrame [f100_long].
Proof.
  eapply (parsePacked_frames_wellFormed (L := lib64) b_long heap0); reflexivity.
Defined.

Lemma Decode_error_kinds_witness :
  ∃ e, (Decode (L := lib64) b_odd heap0).1 = Err e
       ∧ decodeErrorOf b_odd e
       ∧ (Decode (L := lib64) b_odd heap0).2 = heap0.
Proof.
  eexists. split; [reflexivity |].
  eapply (Decode_error_kinds (L := lib64) b_odd heap0). reflexivity.
Defined.

Lemma Decode_log_witness :
  logged (Decode (L := lib64) b_log heap0).2
  = [Warnf_unknown_type TypeArray "c"; Errorf_cannot_find_message 7].
Proof.
  rewrite (Decode_log (L := lib64) b_log heap0 [rawFrame7; rawFrame100]
             [("a", VNumber "1"); ("c", VArray [VTrue])] [f7; f100]).
  - reflexivity.
  - eexists. repeat split; reflexivity.
  - reflexivity.
Defined.

Lemma Decode_ignores_meta_witness :
  (Decode (L := lib64) b_two heap0).1 = (Decode (L := lib64) b_log heap0).1.
Proof.
  eapply (Decode_ignores_meta (L := lib64) b_two b_log heap0 heap0
            [rawFrame7; rawFrame100]).
  - eexists. repeat split; reflexivity.
  - eexists. repeat split; reflexivity.
  - reflexivity.
  - reflexivity.
Defined.

Lemma parsePacked_meta_witness :
  parsePacked (L := lib64) b_dupmeta heap0 = (Ok pf_dupmeta, heap_dupmeta)
  ∧ ∃ m, Meta pf_dupmeta = Some m ∧ m !! "a" = Some (ABool true) ∧ m !! "n" = None.
Proof.
  split; [reflexivity |].
  destruct (parsePacked_meta (L := lib64) b_dupmeta heap0 heap_dupmeta pf_dupmeta
              [("meta", VObject [("a", VNumber "1"); ("a", VTrue); ("n", VNull)]);
               ("frames", VArray [])]
              [("a", VNumber "1"); ("a", VTrue); ("n", VNull)])
    as (m & Hm & Hlook); try reflexivity.
  exists m. split; [exact Hm |]. split; rewrite Hlook; reflexivity.
Defined.

Lemma Decode_missing_id_panics_witness :
  Decode (L := lib64) b_noid heap0 = (Panic NilDereference, heap0).
Proof.
  eapply (Decode_missing_id_panics (L := lib64) b_noid heap0 _ [rawFrame100] []
            [f100] (VObject [("data", VString "00")])); try reflexivity.
  right. reflexivity.
Defined.

Lemma addMessageDb_extends_witness :
  ∃ mm', addMessageDb (L := lib64) table "x.dbc" "de" = Ok mm'
         ∧ mm' !! 100 = Some m100
         ∧ is_Some (mm' !! 101)
         ∧ ¬ is_Some (mm' !! 102).
Proof.
  destruct (addMessageDb_extends (L := lib64) table "x.dbc" "de"
              [{| mid := 100; signals := [("x.dbc", O)] |};
               {| mid := 101; signals := [("x.dbc", O)] |}])
    as (mm' & HA & Hsub & Hdom); [reflexivity |].
  exists mm'. split; [exact HA |]. split; [| split].
  - apply (proj1 (map_subseteq_spec table mm') Hsub). reflexivity.
  - apply Hdom. right. cbn. apply elem_of_cons. right. apply elem_of_cons. by left.
  - intros H. apply Hdom in H as [[m H] | H].
    + discriminate H.
    + cbn in H. apply elem_of_cons in H as [H | H]; [discriminate H |].
      apply elem_of_cons in H as [H | H]; [discriminate H |].
      by apply elem_of_nil in H.
Defined.

Lemma NewConverter_single_file_witness :
  ∃ c, NewConverter (L := lib64) (F := os) "dbc/a.dbc" = Ok c
       ∧ messages c !! 100 = Some (m_a 100)
       ∧ messages c !! 102 = None.
Proof.
  destruct (NewConverter_single_file (L := lib64) (F := os) "dbc/a.dbc" "de"
              [m_a 100; m_a 101])
    as (c & HN & Hl & _); try reflexivity.
  exists c. split; [exact HN |]. split; rewrite Hl; reflexivity.
Defined.

Lemma NewConverter_aborts_witness :
  NewConverter (L := lib64) (F := os_bad) "bad"
  = Err (LibErr (ParseError "permission denied")).
Proof.
  eapply (NewConverter_aborts (L := lib64) (F := os_bad) "bad" ["bad/a.dbc"] []
            "bad/b.dbc" 7 [[{| mid := 100; signals := [("bad/a.dbc", O)] |};
                            {| mid := 101; signals := [("bad/a.dbc", O)] |}]]).
  - reflexivity.
  - reflexivity.
  - repeat constructor. eexists. split; reflexivity.
  - left. reflexivity.
Defined.

Lemma NewConverter_keyed_witness :
  ∃ c, NewConverter (L := lib64) (F := os) "dbc" = Ok c
       ∧ keyed (L := lib64) (messages c)
       ∧ Forall (fun df => mid df.1 = ID df.2) (known (L := lib64) (messages c) [f7; f100]).
Proof.
  destruct (NewConverter (L := lib64) (F := os) "dbc") as [c | |] eqn:E;
    try discriminate E.
  exists c. split; [reflexivity |].
  exact (NewConverter_keyed (L := lib64) (F := os) "dbc" c [f7; f100] E).
Defined.

Lemma dbc_extension_any_case_witness :
  isDbc (filepath_Ext "cars/body.DbC") = true.
Proof.
  exact (dbc_extension_any_case "cars/body" ".DbC" eq_refl).
Defined.

Lemma Legacy_Decode_agrees_witness :
  (Legacy.Decode (L := lib64) b_two heap0).1 = (Decode (L := lib64) b_two heap0).1.
Proof.
  eapply (Legacy_Decode_agrees (L := lib64) b_two heap0 heap0 _ pf_two [f7; f100]);
    reflexivity.
Defined.

Lemma parsePacked_frame_order_witness :
  ∃ frames, Frames pf_two = Some frames
    ∧ length frames = 2%nat
    ∧ ∃ f, frames !! 1%nat = Some f ∧ decodeFrame (L := lib64) b_two rawFrame100 = Ok f.
Proof.
  destruct (parsePacked_frame_order (L := lib64) b_two heap0 heap0 pf_two
              [("meta", VObject [("vin", VString "x1")]);
               ("frames", VArray [rawFrame7; rawFrame100])]
              [rawFrame7; rawFrame100])
    as (frames & HF & Hlen & Hnth); try reflexivity.
  exists frames. split; [exact HF |]. split; [exact Hlen |].
  apply (Hnth 1%nat rawFrame100). reflexivity.
Defined.


Lemma loadFiles_order_irrelevant_witness :
  ∃ mm, loadFiles (L := lib64) (F := os_two) ∅ 1 ["p/a.dbc"; "p/b.dbc"] = Ok mm
        ∧ loadFiles (L := lib64) (F := os_two) ∅ 1 ["p/b.dbc"; "p/a.dbc"] = Ok mm.
Proof.
  apply (loadFiles_order_irrelevant (L := lib64) (F := os_two) 1 1 _ _
           [[{| mid := 100; signals := [("p/a.dbc", O)] |}];
            [{| mid := 101; signals := [("p/b.dbc", O)] |}]]
           [[{| mid := 101; signals := [("p/b.dbc", O)] |}];
            [{| mid := 100; signals := [("p/a.dbc", O)] |}]]).
  - repeat constructor; eexists; split; reflexivity.
  - repeat constructor; eexists; split; reflexivity.
  - apply Permutation_swap.
  - repeat constructor.
    intros id [H1 H2]. cbn in H1, H2.
    apply list_elem_of_singleton in H1, H2. congruence.
Defined.

Lemma decodeFrame_hex_case_witness :
  decodeFrame (L := lib64) b_two
    (VObject [("id", VNumber "100"); ("data", VString "0a0b")])
  = decodeFrame (L := lib64) b_two
      (VObject [("id", VNumber "100"); ("data", VString "0A0B")]).
Proof.
  apply (decodeFrame_hex_case (L := lib64) b_two
           (VObject [("id", VNumber "100"); ("data", VString "0A0B")])
           (VObject [("id", VNumber "100"); ("data", VString "0a0b")])
           "0A0B" f100); reflexivity.
Defined.

Lemma walkFn_selects_witness :
  walkFn [("dbc", Some 4096); ("dbc/a.dbc", Some 2); ("dbc/B.DBC", Some 9);
          ("dbc/notes.txt", None)] [] 0
  = Ok (["dbc/a.dbc"; "dbc/B.DBC"], 9)
  ∧ walkFn [("dbc", Some 4096); ("dbc/a.dbc", Some 2); ("dbc/sub/c.dbc", None)] [] 0
    = Panic NilDereference.
Proof.
  split.
  - apply (walkFn_selects [("dbc", Some 4096); ("dbc/a.dbc", Some 2);
                           ("dbc/B.DBC", Some 9); ("dbc/notes.txt", None)]).
    repeat constructor; eexists; reflexivity.
  - apply (walkFn_selects [("dbc", Some 4096); ("dbc/a.dbc", Some 2);
                           ("dbc/sub/c.dbc", None)]).
    apply Exists_cons_tl, Exists_cons_hd. reflexivity.
Defined.

End MoreConcrete.
